(** * semantic-docs: the search-request guard pipeline

    A shallow embedding of the two guards that sit in front of the
    server-rendered search endpoint, and of the endpoint itself:

    - [src/middleware/rateLimit.ts]: the fixed-window, in-memory rate limiter
      ([isValidIpAddress], [getClientId], [checkRateLimit],
      [createRateLimitHeaders] and the periodic sweep);
    - [src/pages/api/search.json.ts]: [validateOrigin], [POST] and [GET].

    Conventions of the embedding.
    - JavaScript strings are [string]s: sequences of code units below 256,
      which is exact for HTTP header values.
    - Integral JavaScript numbers (counters, millisecond clocks, limits) are
      [Z]; the numbers that arrive in a JSON body are [number]s.
    - Every impure read ([Date.now()], [Math.random()]) is a field of the
      [World] record handed to the function that performs it.
    - A JavaScript exception is the [Throw] constructor of [result]. *)

From Stdlib Require Import ZArith QArith Qround Ascii String List Bool Lia.
From stdpp Require Import gmap strings pretty.

Local Open Scope string_scope.
Local Open Scope Z_scope.

(** ** Platform prelude: strings *)

(** [s.length === 0], the only falsy string. *)
Definition is_empty (s : string) : bool :=
  match s with
  | EmptyString => true
  | String _ _ => false
  end.

(** JavaScript truthiness of a [string | null] value. *)
Definition truthy (v : option string) : bool :=
  match v with
  | Some s => negb (is_empty s)
  | None => false
  end.

(** White space removed by [String.prototype.trim] and skipped by
    [parseInt], among the code units below 256: TAB, LF, VT, FF, CR, SP and
    NBSP. *)
Definition is_white_space (c : ascii) : bool :=
  let n := N_of_ascii c in
  ((9 <=? n) && (n <=? 13))%N || (n =? 32)%N || (n =? 160)%N.

Fixpoint trimStart (s : string) : string :=
  match s with
  | EmptyString => EmptyString
  | String c s' => if is_white_space c then trimStart s' else s
  end.

(** Removal of the trailing characters that satisfy [p]. *)
Fixpoint trimEnd_by (p : ascii -> bool) (s : string) : string :=
  match s with
  | EmptyString => EmptyString
  | String c s' =>
      let t := trimEnd_by p s' in
      if p c && is_empty t then EmptyString else String c t
  end.

Definition trimEnd (s : string) : string := trimEnd_by is_white_space s.

Definition trim (s : string) : string := trimEnd (trimStart s).

(** [s.split(sep)] for a one-character separator: the result always has at
    least one element. *)
Fixpoint split (sep : ascii) (s : string) : list string :=
  match s with
  | EmptyString => [EmptyString]
  | String c s' =>
      if Ascii.eqb c sep then EmptyString :: split sep s'
      else match split sep s' with
           | [] => [String c EmptyString]
           | w :: ws => String c w :: ws
           end
  end.

(** ** Platform prelude: regular expressions

    Every pattern of the source is anchored on both sides ([^...$], or an
    alternation of such), has no flag, no group reference and no look-around,
    so [RegExp.prototype.test] decides membership of the whole string in a
    regular language.  Membership is computed with Brzozowski derivatives. *)

Inductive regex : Type :=
| Void : regex
| Eps : regex
| Cls : list (ascii * ascii) -> regex
| Cat : regex -> regex -> regex
| Alt : regex -> regex -> regex
| Star : regex -> regex.

Definition in_range (c : ascii) (r : ascii * ascii) : bool :=
  ((N_of_ascii (fst r) <=? N_of_ascii c) && (N_of_ascii c <=? N_of_ascii (snd r)))%N.

Definition in_class (c : ascii) (cls : list (ascii * ascii)) : bool :=
  existsb (in_range c) cls.

Fixpoint nullable (r : regex) : bool :=
  match r with
  | Void => false
  | Eps => true
  | Cls _ => false
  | Cat a b => nullable a && nullable b
  | Alt a b => nullable a || nullable b
  | Star _ => true
  end.

Definition cat (a b : regex) : regex :=
  match a, b with
  | Void, _ => Void
  | _, Void => Void
  | Eps, _ => b
  | _, Eps => a
  | _, _ => Cat a b
  end.

Definition alt (a b : regex) : regex :=
  match a, b with
  | Void, _ => b
  | _, Void => a
  | _, _ => Alt a b
  end.

Fixpoint deriv (c : ascii) (r : regex) : regex :=
  match r with
  | Void => Void
  | Eps => Void
  | Cls cls => if in_class c cls then Eps else Void
  | Cat a b =>
      alt (cat (deriv c a) b) (if nullable a then deriv c b else Void)
  | Alt a b => alt (deriv c a) (deriv c b)
  | Star a => cat (deriv c a) (Star a)
  end.

Fixpoint test (r : regex) (s : string) : bool :=
  match s with
  | EmptyString => nullable r
  | String c s' => test (deriv c r) s'
  end.

(** Pattern syntax. *)
Definition chr (c : ascii) : regex := Cls [(c, c)].
Definition rng (a b : ascii) : regex := Cls [(a, b)].
Definition opt (r : regex) : regex := Alt r Eps.
Definition plus (r : regex) : regex := Cat r (Star r).

Fixpoint lit (s : string) : regex :=
  match s with
  | EmptyString => Eps
  | String c s' => Cat (chr c) (lit s')
  end.

Fixpoint alts (rs : list regex) : regex :=
  match rs with
  | [] => Void
  | [r] => r
  | r :: rs' => Alt r (alts rs')
  end.

Fixpoint cats (rs : list regex) : regex :=
  match rs with
  | [] => Eps
  | [r] => r
  | r :: rs' => Cat r (cats rs')
  end.

(** [r{n}] *)
Fixpoint times (n : nat) (r : regex) : regex :=
  match n with
  | O => Eps
  | S n' => Cat r (times n' r)
  end.

(** [r{0,n}] *)
Fixpoint upto (n : nat) (r : regex) : regex :=
  match n with
  | O => Eps
  | S n' => opt (Cat r (upto n' r))
  end.

(** [r{lo,hi}] *)
Definition rep (lo hi : nat) (r : regex) : regex :=
  Cat (times lo r) (upto (hi - lo) r).

(** [\d] *)
Definition digit : regex := rng "0" "9".

(** The language of a pattern, stated independently of the matcher; a
    non-empty iteration of [Star] consumes at least one character. *)
Inductive matches : regex -> string -> Prop :=
| matches_eps : matches Eps ""
| matches_cls cls c : in_class c cls = true -> matches (Cls cls) (String c "")
| matches_cat a b s t : matches a s -> matches b t -> matches (Cat a b) (s +:+ t)
| matches_alt_l a b s : matches a s -> matches (Alt a b) s
| matches_alt_r a b s : matches b s -> matches (Alt a b) s
| matches_star_nil a : matches (Star a) ""
| matches_star_cons a c s t :
    matches a (String c s) -> matches (Star a) t ->
    matches (Star a) (String c s +:+ t).

(** ** Platform prelude: exceptions, numbers, JSON *)

Inductive exn : Type :=
| TypeError (message : string).

Inductive result (A : Type) : Type :=
| Ok (a : A)
| Throw (e : exn).
Arguments Ok {A} a.
Arguments Throw {A} e.

Definition bind {A B : Type} (m : result A) (k : A -> result B) : result B :=
  match m with
  | Ok a => k a
  | Throw e => Throw e
  end.

(** A JavaScript number: a finite value, kept as the rational it denotes, or
    one of the three non-finite values. *)
Inductive number : Type :=
| Finite (q : Q)
| NaN
| PosInfinity
| NegInfinity.

(** [Number.isFinite] *)
Definition isFinite (n : number) : bool :=
  match n with
  | Finite _ => true
  | _ => false
  end.

(** The number denoted by a mathematical integer: magnitudes from
    [2^1024 - 2^970] on round to an infinity.  Finite values are kept exact;
    rounding to the nearest double is monotone and fixes the small integers,
    so it cannot be observed through the clamp of the search handler. *)
Definition number_of_Z (z : Z) : number :=
  if 2 ^ 1024 - 2 ^ 970 <=? z then PosInfinity
  else if z <=? - (2 ^ 1024 - 2 ^ 970) then NegInfinity
  else Finite (inject_Z z).

Definition is_digit (c : ascii) : bool :=
  ((48 <=? N_of_ascii c) && (N_of_ascii c <=? 57))%N.

Fixpoint take_while (p : ascii -> bool) (s : string) : string :=
  match s with
  | EmptyString => EmptyString
  | String c s' => if p c then String c (take_while p s') else EmptyString
  end.

Fixpoint drop_while (p : ascii -> bool) (s : string) : string :=
  match s with
  | EmptyString => EmptyString
  | String c s' => if p c then drop_while p s' else s
  end.

(** The value of a string of decimal digits, most significant first. *)
Fixpoint digits_value (acc : Z) (s : string) : Z :=
  match s with
  | EmptyString => acc
  | String c s' => digits_value (10 * acc + (Z.of_N (N_of_ascii c) - 48)) s'
  end.

(** [Number.parseInt(s, 10)]: leading white space, an optional sign, then the
    longest run of decimal digits; [NaN] when that run is empty. *)
Definition parseInt (s : string) : number :=
  let s1 := trimStart s in
  let '(negative, s2) :=
    match s1 with
    | String "-" r => (true, r)
    | String "+" r => (false, r)
    | _ => (false, s1)
    end%char in
  let ds := take_while is_digit s2 in
  if is_empty ds then NaN
  else number_of_Z (if negative then - digits_value 0 ds else digits_value 0 ds).

(** The values [JSON.parse] produces and [JSON.stringify] consumes.  An
    object keeps its members in source order; a repeated key is read as its
    last occurrence. *)
#[warnings="-register-all"]
Inductive JSON : Type :=
| JNull
| JBool (b : bool)
| JNum (n : number)
| JStr (s : string)
| JArr (items : list JSON)
| JObj (members : list (string * JSON)).

Fixpoint member (key : string) (members : list (string * JSON)) : option JSON :=
  match members with
  | [] => None
  | (k, v) :: rest =>
      match member key rest with
      | Some v' => Some v'
      | None => if String.eqb k key then Some v else None
      end
  end.

(** ** The rate limiter: [src/middleware/rateLimit.ts] *)

Record RateLimitEntry : Type := {
  count : Z;
  resetTime : Z
}.

Inductive TrustedProxyHeader : Type :=
| cf_connecting_ip
| x_real_ip
| x_forwarded_for.

Record RateLimitConfig : Type := {
  maxRequests : Z;
  windowSeconds : Z;
  trustedProxyHeader : option TrustedProxyHeader
}.

Record RateLimitResult : Type := {
  allowed : bool;
  limit : Z;
  remaining : Z;
  result_resetTime : Z
}.

(** A request, as far as the handlers read it: its headers, keyed by their
    lower-case names (the platform's [Headers] object is case-insensitive, so
    [request.headers.get(n)] is a lookup), and the outcome of
    [request.json()], [None] when the body is not valid JSON. *)
Record Request : Type := {
  headers : gmap string string;
  json : option JSON
}.

(** The clock and the random source, as one handler invocation reads them. *)
Record World : Type := {
  idTime : Z;          (* [Date.now()] inside [getClientId] *)
  random36 : string;   (* [Math.random().toString(36).slice(2)] *)
  now : Z;             (* [Date.now()] inside [checkRateLimit] *)
  bodyNow : Z;         (* [Date.now()] for the 429 body's [retryAfter] *)
  headerNow : Z        (* [Date.now()] for the 429 [Retry-After] header *)
}.

(** The process-wide store.  Entries are mutable objects: [objects] is the
    heap they live in and [rateLimitStore] the [Map] from client id to a
    reference into it, so that [entry.count++] on a looked-up entry is seen
    by the next lookup. *)
Record Store : Type := {
  objects : gmap positive RateLimitEntry;
  rateLimitStore : gmap string positive
}.

Definition empty_store : Store :=
  {| objects := ∅; rateLimitStore := ∅ |}.

(** [rateLimitStore.get(id)], dereferenced. *)
Definition store_get (σ : Store) (id : string) : option (positive * RateLimitEntry) :=
  r ← rateLimitStore σ !! id; e ← objects σ !! r; Some (r, e).

Definition lookup_entry (σ : Store) (id : string) : option RateLimitEntry :=
  snd <$> store_get σ id.

(** Cleanup interval for expired entries (5 minutes). *)
Definition CLEANUP_INTERVAL_MS : Z := 5 * 60 * 1000.

(** The periodic sweep: the body of the [setInterval] callback, which the
    platform runs every [CLEANUP_INTERVAL_MS], at clock reading [t]. *)
Definition expired (σ : Store) (t : Z) (r : positive) : bool :=
  match objects σ !! r with
  | Some e => t >? resetTime e
  | None => false
  end.

Definition sweep (t : Z) (σ : Store) : Store :=
  {| objects := objects σ;
     rateLimitStore :=
       filter (λ kr, expired σ t kr.2 = false) (rateLimitStore σ) |}.

(** [25[0-5]|2[0-4][0-9]|[01]?[0-9][0-9]?] *)
Definition octet : regex :=
  alts [ cats [lit "25"; rng "0" "5"];
         cats [chr "2"; rng "0" "4"; rng "0" "9"];
         cats [opt (rng "0" "1"); rng "0" "9"; opt (rng "0" "9")] ].

Definition ipv4Regex : regex :=
  Cat (times 3 (Cat octet (chr "."))) octet.

(** [[a-fA-F0-9]{1,4}] *)
Definition hextet : regex :=
  rep 1 4 (Cls [("a", "f"); ("A", "F"); ("0", "9")])%char.

(** [(?:[a-fA-F0-9]{1,4}:)] and [(?::[a-fA-F0-9]{1,4})] *)
Definition hextet_colon : regex := Cat hextet (chr ":").
Definition colon_hextet : regex := Cat (chr ":") hextet.

Definition ipv6Regex : regex :=
  alts [ Cat (times 7 hextet_colon) hextet;
         cats [lit "::"; rep 0 6 hextet_colon; hextet];
         Cat (rep 1 7 hextet_colon) (chr ":");
         cats [rep 1 6 hextet_colon; chr ":"; hextet];
         Cat (rep 1 5 hextet_colon) (rep 1 2 colon_hextet);
         Cat (rep 1 4 hextet_colon) (rep 1 3 colon_hextet);
         Cat (rep 1 3 hextet_colon) (rep 1 4 colon_hextet);
         Cat (rep 1 2 hextet_colon) (rep 1 5 colon_hextet);
         Cat hextet_colon (rep 1 6 colon_hextet) ].

Definition isValidIpAddress (ip : string) : bool :=
  test ipv4Regex ip || test ipv6Regex ip.

(** The candidate address read from the trusted header. *)
Definition proxyIp (request : Request) (h : TrustedProxyHeader) : option string :=
  match h with
  | cf_connecting_ip => headers request !! "cf-connecting-ip"
  | x_real_ip => headers request !! "x-real-ip"
  | x_forwarded_for =>
      v ← headers request !! "x-forwarded-for";
      first ← head (split "," v);
      Some (trim first)
  end.

(** [`unknown-${Date.now()}-${Math.random().toString(36).slice(2)}`] *)
Definition fallbackId (w : World) : string :=
  "unknown-" +:+ pretty (idTime w) +:+ "-" +:+ random36 w.

Definition getClientId (w : World) (request : Request)
    (trusted : option TrustedProxyHeader) : string :=
  match trusted with
  | Some h =>
      match proxyIp request h with
      | Some ip =>
          if truthy (Some ip) && isValidIpAddress ip then ip else fallbackId w
      | None => fallbackId w
      end
  | None => fallbackId w
  end.

(** The default value of [checkRateLimit]'s [config] parameter. *)
Definition defaultConfig : RateLimitConfig :=
  {| maxRequests := 10; windowSeconds := 60; trustedProxyHeader := None |}.

(** [checkRateLimit].  The entry in hand is the reference [r]: either the one
    the map already holds, or a freshly allocated object that is put in the
    map before it is incremented. *)
Definition checkRateLimit (w : World) (request : Request)
    (config : RateLimitConfig) (σ : Store) : RateLimitResult * Store :=
  let clientId := getClientId w request (trustedProxyHeader config) in
  let windowMs := windowSeconds config * 1000 in
  let '(r, entry, σ1) :=
    match store_get σ clientId with
    | Some (r, e) =>
        if now w >? resetTime e then
          let r' := fresh (dom (objects σ)) in
          let e' := {| count := 0; resetTime := now w + windowMs |} in
          (r', e', {| objects := <[r' := e']> (objects σ);
                      rateLimitStore := <[clientId := r']> (rateLimitStore σ) |})
        else (r, e, σ)
    | None =>
        let r' := fresh (dom (objects σ)) in
        let e' := {| count := 0; resetTime := now w + windowMs |} in
        (r', e', {| objects := <[r' := e']> (objects σ);
                    rateLimitStore := <[clientId := r']> (rateLimitStore σ) |})
    end in
  let entry' := {| count := count entry + 1; resetTime := resetTime entry |} in
  let σ2 := {| objects := <[r := entry']> (objects σ1);
               rateLimitStore := rateLimitStore σ1 |} in
  ({| allowed := count entry' <=? maxRequests config;
      limit := maxRequests config;
      remaining := Z.max 0 (maxRequests config - count entry');
      result_resetTime := resetTime entry' |},
   σ2).

(** [createRateLimitHeaders]; [Math.floor(t / 1000)] is [t / 1000] on [Z],
    and [toString] is [pretty]: the decimal numeral, which is what the
    platform writes for a whole number below [10^21] (from there on it
    writes an exponent). *)
Definition createRateLimitHeaders (result : RateLimitResult) : gmap string string :=
  {[ "X-RateLimit-Limit" := pretty (limit result);
     "X-RateLimit-Remaining" := pretty (remaining result);
     "X-RateLimit-Reset" := pretty (result_resetTime result / 1000) ]}.


(** ** The platform's [URL]

    [validateOrigin] reads one property of a parsed URL, its [origin], and
    can observe one more thing: that [new URL(s)] throws.  [URL_new] is a
    reference instance of the parser for the fragment the guard meets in
    practice: absolute URLs whose host is ASCII, free of percent escapes,
    and written in full.  The properties of [validateOrigin] below are stated
    for an arbitrary parser; [URL_new] serves the worked examples. *)

Record URL : Type := { origin : string }.

Definition is_alpha (c : ascii) : bool :=
  let n := N_of_ascii c in
  (((65 <=? n) && (n <=? 90)) || ((97 <=? n) && (n <=? 122)))%N.

Definition lower (c : ascii) : ascii :=
  let n := N_of_ascii c in
  if ((65 <=? n) && (n <=? 90))%N then ascii_of_N (n + 32) else c.

Fixpoint lowercase (s : string) : string :=
  match s with
  | EmptyString => EmptyString
  | String c s' => String (lower c) (lowercase s')
  end.

Fixpoint forallb_string (p : ascii -> bool) (s : string) : bool :=
  match s with
  | EmptyString => true
  | String c s' => p c && forallb_string p s'
  end.

Definition is_c0_or_space (c : ascii) : bool := (N_of_ascii c <=? 32)%N.
Definition is_tab_or_newline (c : ascii) : bool :=
  let n := N_of_ascii c in ((n =? 9) || (n =? 10) || (n =? 13))%N.
Definition is_scheme_char (c : ascii) : bool :=
  is_alpha c || is_digit c || in_class c [("+", "+"); ("-", "-"); (".", ".")]%char.
Definition is_slash (c : ascii) : bool :=
  in_class c [("/", "/"); ("\", "\")]%char.
Definition ends_authority (c : ascii) : bool :=
  in_class c [("/", "/"); ("\", "\"); ("?", "?"); ("#", "#")]%char.
Definition is_hex_or_colon (c : ascii) : bool :=
  in_class c [("0", "9"); ("a", "f"); ("A", "F"); (":", ":")]%char.
(** Code points a domain may not contain; non-ASCII and ['%'] are outside
    the modelled fragment. *)
Definition is_domain_char (c : ascii) : bool :=
  let n := N_of_ascii c in
  ((32 <? n) && (n <? 127))%N
  && negb (N_of_ascii c =? 34)%N   (* the double quote *)
  && negb (in_class c [("#", "#"); ("%", "%"); ("/", "/");
                        (":", ":"); ("<", "<"); (">", ">"); ("?", "?");
                        ("@", "@"); ("[", "["); ("\", "\"); ("]", "]");
                        ("^", "^"); ("`", "`"); ("{", "{"); ("|", "|");
                        ("}", "}")]%char).

Fixpoint filter_string (p : ascii -> bool) (s : string) : string :=
  match s with
  | EmptyString => EmptyString
  | String c s' => if p c then String c (filter_string p s') else filter_string p s'
  end.

(** The part of [s] after its last ['@'], or [s] itself. *)
Fixpoint after_last_at (s : string) : string :=
  match s with
  | EmptyString => EmptyString
  | String c s' =>
      if existsb (Ascii.eqb "@") (list_ascii_of_string s') then after_last_at s'
      else if Ascii.eqb c "@" then s' else s
  end.

Definition default_port (scheme : string) : option Z :=
  if String.eqb scheme "http" then Some 80
  else if String.eqb scheme "https" then Some 443
  else if String.eqb scheme "ws" then Some 80
  else if String.eqb scheme "wss" then Some 443
  else if String.eqb scheme "ftp" then Some 21
  else None.

(** Host and port of an authority without credentials. *)
Definition split_host_port (a : string) : option (string * string) :=
  match a with
  | String "[" rest =>
      let h := take_while is_hex_or_colon rest in
      match drop_while is_hex_or_colon rest with
      | String "]" EmptyString => Some ("[" +:+ lowercase h +:+ "]", EmptyString)
      | String "]" (String ":" p) => Some ("[" +:+ lowercase h +:+ "]", p)
      | _ => None
      end
  | _ =>
      let h := take_while is_domain_char a in
      if is_empty h then None
      else match drop_while is_domain_char a with
           | EmptyString => Some (lowercase h, EmptyString)
           | String ":" p => Some (lowercase h, p)
           | _ => None
           end
  end%char.

(** [new URL(s)], without a base: [None] stands for the [TypeError] the
    constructor throws. *)
Definition URL_new (s : string) : option URL :=
  let s := filter_string (λ c, negb (is_tab_or_newline c))
             (trimEnd_by is_c0_or_space (drop_while is_c0_or_space s)) in
  match s with
  | EmptyString => None
  | String c0 _ =>
      if negb (is_alpha c0) then None
      else
        let scheme := lowercase (take_while is_scheme_char s) in
        match drop_while is_scheme_char s with
        | String ":" rest =>
            match default_port scheme with
            | None => Some {| origin := "null" |}
            | Some dp =>
                let rest := drop_while is_slash rest in
                let authority :=
                  after_last_at (take_while (λ c, negb (ends_authority c)) rest) in
                match split_host_port authority with
                | None => None
                | Some (host, p) =>
                    if negb (forallb_string is_digit p) then None
                    else
                      let port := digits_value 0 p in
                      if 65535 <? port then None
                      else if is_empty p || (port =? dp) then
                        Some {| origin := scheme +:+ "://" +:+ host |}
                      else
                        Some {| origin := scheme +:+ "://" +:+ host +:+ ":" +:+ pretty port |}
                end
            end
        | _ => None
        end
  end.

(** ** The search endpoint: [src/pages/api/search.json.ts] *)

Record ValidateOriginEnv : Type := {
  isDevelopment : bool;
  isTest : bool
}.

Record Response : Type := {
  status : Z;
  response_headers : gmap string string;
  body : JSON   (* the value given to [JSON.stringify] *)
}.

(** [{ ...target, ...source }]: the later spread wins. *)
Definition spread (target source : gmap string string) : gmap string string :=
  source ∪ target.

Definition localhostPatterns : list regex :=
  [ cats [lit "http"; opt (chr "s"); lit "://localhost"; opt (Cat (chr ":") (plus digit))];
    cats [lit "http"; opt (chr "s"); lit "://127.0.0.1"; opt (Cat (chr ":") (plus digit))];
    cats [lit "http"; opt (chr "s"); lit "://[::1]"; opt (Cat (chr ":") (plus digit))] ].

Definition securityHeaders : gmap string string :=
  {[ "X-Content-Type-Options" := "nosniff";
     "X-Frame-Options" := "DENY";
     "X-XSS-Protection" := "1; mode=block";
     "Content-Security-Policy" := "default-src 'none'; frame-ancestors 'none'" ]}.

(** [Math.ceil(x / 1000)] for an integer [x]. *)
Definition ceil_div_1000 (x : Z) : Z := - ((- x) / 1000).

(** The limit computation of [POST], from the [limit] member of the body
    (already defaulted to [10] when absent) to [sanitizedLimit].
    [numericLimit] is integral on every path ([Math.floor], [parseInt] or
    the default), hence a [Z]; [Qfloor] reads the integer [parseInt] returned
    back from its [number]. *)
Definition numericLimit (limit : JSON) : Z :=
  match limit with
  | JNum (Finite q) => Qfloor q
  | JStr s =>
      match parseInt s with
      | Finite parsed => Qfloor parsed
      | _ => 10
      end
  | _ => 10
  end.

Definition sanitizedLimit (limit : JSON) : Z :=
  Z.min (Z.max 1 (numericLimit limit)) 20.

(** [const { query, limit = 10 } = body]: destructuring [null] throws, any
    other JSON value answers [undefined] for a member it does not have. *)
Definition destructure (body : JSON) : result (option JSON * JSON) :=
  match body with
  | JNull => Throw (TypeError "Cannot destructure property 'query' of 'body' as it is null.")
  | JObj members =>
      Ok (member "query" members, default (JNum (Finite 10)) (member "limit" members))
  | _ => Ok (None, JNum (Finite 10))
  end.

Section Endpoint.

(** The collaborators of the endpoint: the URL parser of the platform, the
    ambient [NODE_ENV] (as [env.nodeEnv] reads it, with its default), the
    database client factory and the vector search of the search library,
    each of which may throw. *)
Variable parse_url : string -> option URL.
Variable nodeEnv : string.
Variable Client : Type.
Variable getTursoClient : result Client.
Variable search : Client -> string -> Z -> result (list JSON).

(** [env.isDevelopment] and [env.isTest] of [src/lib/env.ts]. *)
Definition env : ValidateOriginEnv :=
  {| isDevelopment := String.eqb nodeEnv "development";
     isTest := String.eqb nodeEnv "test" |}.

(** [origin || (referer ? new URL(referer).origin : null)] *)
Definition requestOrigin (request : Request) : result (option string) :=
  let origin_header := headers request !! "origin" in
  let referer := headers request !! "referer" in
  if truthy origin_header then Ok origin_header
  else
    match referer with
    | Some r =>
        if truthy referer then
          match parse_url r with
          | Some u => Ok (Some (origin u))
          | None => Throw (TypeError "Invalid URL")
          end
        else Ok None
    | None => Ok None
    end.

Definition validateOrigin (request : Request) (siteUrl : option URL)
    (envOverride : option ValidateOriginEnv) : result bool :=
  let currentEnv := default env envOverride in
  bind (requestOrigin request) (λ ro,
    match ro with
    | Some o =>
        if is_empty o then Ok (isDevelopment currentEnv || isTest currentEnv)
        else if match siteUrl with
                | Some u => String.eqb o (origin u)
                | None => false
                end
        then Ok true
        else if isDevelopment currentEnv || isTest currentEnv
        then Ok (existsb (λ pattern, test pattern o) localhostPatterns)
        else Ok false
    | None => Ok (isDevelopment currentEnv || isTest currentEnv)
    end).

Definition jsonHeaders : gmap string string :=
  spread {[ "Content-Type" := "application/json" ]} securityHeaders.

Definition error_body (error : string) (message : option string) : JSON :=
  match message with
  | Some m => JObj [("error", JStr error); ("message", JStr m)]
  | None => JObj [("error", JStr error)]
  end.

Definition searchConfig : RateLimitConfig :=
  {| maxRequests := 20; windowSeconds := 60;
     trustedProxyHeader := Some x_forwarded_for |}.

(** The guarded part of [POST], after the body was parsed: the [try] block
    and its [catch], which turns every exception into the generic 500. *)
Definition run_search (rateLimitHeaders : gmap string string) (body : JSON) : Response :=
  let attempt : result Response :=
    bind (destructure body) (λ '(query, limit),
      match query with
      | Some (JStr query) =>
          if is_empty query then
            Ok {| status := 400; response_headers := rateLimitHeaders;
                  body := error_body "Query parameter is required" None |}
          else if 500 <? Z.of_nat (String.length query) then
            Ok {| status := 400; response_headers := rateLimitHeaders;
                  body := error_body "Query too long"
                            (Some "Query must be less than 500 characters") |}
          else
            bind getTursoClient (λ client,
            bind (search client query (sanitizedLimit limit)) (λ results,
              Ok {| status := 200; response_headers := rateLimitHeaders;
                    body := JObj [("results", JArr results);
                                  ("count", JNum (Finite (inject_Z (Z.of_nat (length results)))));
                                  ("query", JStr query)] |}))
      | _ =>
          Ok {| status := 400; response_headers := rateLimitHeaders;
                body := error_body "Query parameter is required" None |}
      end) in
  match attempt with
  | Ok response => response
  | Throw _ =>
      {| status := 500; response_headers := rateLimitHeaders;
         body := error_body "Search failed"
                   (Some "An error occurred while processing your search request.") |}
  end.

Definition POST (w : World) (request : Request) (site : option URL)
    (σ : Store) : result (Response * Store) :=
  bind (validateOrigin request site None) (λ valid,
    if negb valid then
      Ok ({| status := 403; response_headers := jsonHeaders;
             body := error_body "Forbidden" (Some "Invalid request origin") |}, σ)
    else
      let '(rateLimitResult, σ') := checkRateLimit w request searchConfig σ in
      let rateLimitHeaders :=
        spread jsonHeaders (createRateLimitHeaders rateLimitResult) in
      if negb (allowed rateLimitResult) then
        Ok ({| status := 429;
               response_headers :=
                 spread rateLimitHeaders
                   {[ "Retry-After" :=
                        pretty (ceil_div_1000 (result_resetTime rateLimitResult - headerNow w)) ]};
               body := JObj [("error", JStr "Too many requests");
                             ("message", JStr "Rate limit exceeded. Please try again later.");
                             ("retryAfter",
                              JNum (Finite (inject_Z
                                (ceil_div_1000 (result_resetTime rateLimitResult - bodyNow w)))))] |},
            σ')
      else
        match json request with
        | None =>
            Ok ({| status := 400; response_headers := rateLimitHeaders;
                   body := error_body "Invalid JSON" (Some "Request body must be valid JSON.") |},
                σ')
        | Some body => Ok (run_search rateLimitHeaders body, σ')
        end).

Definition GET : Response :=
  {| status := 405;
     response_headers := spread jsonHeaders {[ "Allow" := "POST" ]};
     body := error_body "Use POST method for search" None |}.

(** [GET] as the superseded copy of [search.json.ts] in the repository has
    it. *)
Definition GET_legacy : Response :=
  {| status := 405;
     response_headers := {[ "Content-Type" := "application/json" ]};
     body := error_body "Use POST method for search" None |}.

End Endpoint.

(** ** States of the store and vocabulary of the properties *)

(** The states the process can be in: the module starts with an empty map,
    and only [checkRateLimit] and the sweep ever touch it. *)
Inductive reachable : Store -> Prop :=
| reachable_start : reachable empty_store
| reachable_check w request config σ :
    reachable σ -> reachable (snd (checkRateLimit w request config σ))
| reachable_sweep t σ :
    reachable σ -> reachable (sweep t σ).

(** One entry per client id: every id of the map refers to a live entry
    object, and no entry object is shared by two ids. *)
Definition store_wf (σ : Store) : Prop :=
  (∀ id r, rateLimitStore σ !! id = Some r -> is_Some (objects σ !! r)) ∧
  (∀ id1 id2 r, rateLimitStore σ !! id1 = Some r ->
                rateLimitStore σ !! id2 = Some r -> id1 = id2).

(** The call at [w] starts a new window for [id]: there is no entry, or the
    entry's window has passed. *)
Definition opens_window (w : World) (σ : Store) (id : string) : Prop :=
  match lookup_entry σ id with
  | Some e => resetTime e < now w
  | None => True
  end.

(** A [limit] member that is a non-finite number, or a string that
    [parseInt] does not turn into a finite number. *)
Definition unparseable (limit : JSON) : bool :=
  match limit with
  | JNum n => negb (isFinite n)
  | JStr s => negb (isFinite (parseInt s))
  | _ => false
  end.

(** Two strings denote the same origin: scheme, host and port agree once the
    host is lower-cased and a default port is dropped. *)
Definition same_origin (a b : string) : Prop :=
  ∃ u v, URL_new a = Some u ∧ URL_new b = Some v ∧ origin u = origin v.

(** The members of an object other than those named [key], and a request
    with another body. *)
Definition without (key : string) (members : list (string * JSON)) : list (string * JSON) :=
  List.filter (λ kv, negb (String.eqb (fst kv) key)) members.

Definition with_json (request : Request) (j : JSON) : Request :=
  {| headers := headers request; json := Some j |}.

(** The first and last characters of a string, and what [trim] leaves
    there. *)
Definition first_char (s : string) : option ascii :=
  match s with
  | EmptyString => None
  | String c _ => Some c
  end.

Fixpoint last_char (s : string) : option ascii :=
  match s with
  | EmptyString => None
  | String c EmptyString => Some c
  | String _ s' => last_char s'
  end.

Definition not_white (c : option ascii) : Prop :=
  match c with
  | Some c => is_white_space c = false
  | None => True
  end.

(** A string of decimal digits. *)
Definition all_digits (s : string) : Prop := forallb_string is_digit s = true.

(** The first comma-separated entry of a header value. *)
Definition first_entry (v : string) : string :=
  take_while (λ c, negb (Ascii.eqb c ",")) v.

(** Example data. *)
Definition request_with (hs : list (string * string)) (j : option JSON) : Request :=
  {| headers := list_to_map hs; json := j |}.

Definition at_time (t : Z) : World :=
  {| idTime := t; random36 := "k3x9"; now := t; bodyNow := t; headerNow := t |}.

Definition production : ValidateOriginEnv :=
  {| isDevelopment := false; isTest := false |}.

Definition example_site : URL := {| origin := "https://example.com" |}.

Definition example_config : RateLimitConfig :=
  {| maxRequests := 3; windowSeconds := 60;
     trustedProxyHeader := Some x_forwarded_for |}.

Definition zero_window_config : RateLimitConfig :=
  {| maxRequests := 1; windowSeconds := 0;
     trustedProxyHeader := Some x_forwarded_for |}.

Definition closed_config : RateLimitConfig :=
  {| maxRequests := 0; windowSeconds := 60;
     trustedProxyHeader := Some x_forwarded_for |}.

Definition example_request : Request :=
  request_with [("origin", "https://example.com");
                ("x-forwarded-for", "10.20.30.40, 172.16.0.1")]
               (Some (JObj [("query", JStr "hello")])).

(** A run of calls, oldest first, and the answers it gets. *)
Fixpoint run_checks (calls : list (World * Request * RateLimitConfig))
    (σ : Store) : list RateLimitResult * Store :=
  match calls with
  | [] => ([], σ)
  | (w, request, config) :: rest =>
      let '(answer, σ1) := checkRateLimit w request config σ in
      let '(answers, σ2) := run_checks rest σ1 in
      (answer :: answers, σ2)
  end.

(** A search collaborator that answers with the limit it was given. *)
Definition echo_search (client : unit) (query : string) (limit : Z) : result (list JSON) :=
  Ok [JNum (Finite (inject_Z limit))].

(** The store after one call of the example client at time 1000. *)
Definition example_store : Store :=
  snd (checkRateLimit (at_time 1000) example_request example_config empty_store).

(** ** Further code of the repository *)

(** *** [src/lib/env.ts] *)

(** The two places environment variables are read from; either object may
    be missing on a given platform. *)
Record EnvSources : Type := {
  importMetaEnv : option (gmap string string);
  processEnv : option (gmap string string)
}.

(** A call that returns, or throws [new Error(message)]. *)
Inductive thrown (A : Type) : Type :=
| Returns (a : A)
| Throws (message : string).
Arguments Returns {A} a.
Arguments Throws {A} message.

(** [obj[key]] is the lookup among the variables the object holds, which
    is what the platform answers at every key that is not a member inherited
    from [Object.prototype]. *)
Definition getEnv (sources : EnvSources) (key : string)
    (defaultValue : option string) : option string :=
  let metaEnvValue := m ← importMetaEnv sources; m !! key in
  if truthy metaEnvValue then metaEnvValue
  else
    let processEnvValue := m ← processEnv sources; m !! key in
    if truthy processEnvValue then processEnvValue
    else defaultValue.

Definition getRequiredEnv (sources : EnvSources) (key : string) : thrown string :=
  match getEnv sources key None with
  | Some value =>
      if is_empty value
      then Throws ("Required environment variable " +:+ key +:+ " is not set")
      else Returns value
  | None => Throws ("Required environment variable " +:+ key +:+ " is not set")
  end.

(** The getters of the [env] object. *)
Definition env_tursoDbUrl (sources : EnvSources) : option string :=
  getEnv sources "TURSO_DB_URL" None.

Definition env_tursoAuthToken (sources : EnvSources) : option string :=
  getEnv sources "TURSO_AUTH_TOKEN" None.

Definition env_hasTursoCredentials (sources : EnvSources) : bool :=
  truthy (env_tursoDbUrl sources) && truthy (env_tursoAuthToken sources).

Definition env_nodeEnv (sources : EnvSources) : string :=
  default "development" (getEnv sources "NODE_ENV" (Some "development")).

Definition env_isProduction (sources : EnvSources) : bool :=
  String.eqb (env_nodeEnv sources) "production".

Definition env_isDevelopment (sources : EnvSources) : bool :=
  String.eqb (env_nodeEnv sources) "development".

Definition env_isTest (sources : EnvSources) : bool :=
  String.eqb (env_nodeEnv sources) "test".

(** *** The earlier [getClientId], which the other copy of the endpoint uses *)

(** [cfConnectingIp || realIp || forwarded?.split(',')[0]?.trim()] *)
Definition legacy_proxyIp (request : Request) : option string :=
  let cfConnectingIp := headers request !! "cf-connecting-ip" in
  let realIp := headers request !! "x-real-ip" in
  let forwarded := headers request !! "x-forwarded-for" in
  if truthy cfConnectingIp then cfConnectingIp
  else if truthy realIp then realIp
  else v ← forwarded; first ← head (split "," v); Some (trim first).

Definition legacy_getClientId (w : World) (request : Request)
    (trustProxy : bool) : string :=
  if trustProxy then
    match legacy_proxyIp request with
    | Some ip => if truthy (Some ip) then ip else fallbackId w
    | None => fallbackId w
    end
  else fallbackId w.

(** *** [src/lib/validation.ts] *)

(** [[a-z0-9]+] and [^[a-z0-9]+(?:-[a-z0-9]+)*$] *)
Definition slug_word : regex := plus (Cls [("a", "z"); ("0", "9")])%char.

Definition slugRegex : regex :=
  Cat slug_word (Star (Cat (chr "-") slug_word)).

Definition isValidSlug (slug : JSON) : bool :=
  match slug with
  | JStr s => test slugRegex s
  | _ => false
  end.

Record EnvironmentConfig : Type := {
  TURSO_DB_URL : string;
  TURSO_AUTH_TOKEN : string
}.

Definition validateEnvironment (env : gmap string string) : thrown EnvironmentConfig :=
  if negb (truthy (env !! "TURSO_DB_URL")) then Throws "TURSO_DB_URL is required"
  else if negb (truthy (env !! "TURSO_AUTH_TOKEN")) then Throws "TURSO_AUTH_TOKEN is required"
  else Returns {| TURSO_DB_URL := default "" (env !! "TURSO_DB_URL");
                  TURSO_AUTH_TOKEN := default "" (env !! "TURSO_AUTH_TOKEN") |}.

(** *** [escapeHtml] of the markdown renderer

    The replacement works code unit by code unit, so the text is taken as
    its sequence of UTF-16 code units, whatever they are. *)

Definition units (s : string) : list N :=
  map N_of_ascii (list_ascii_of_string s).

(** The table [htmlEscapes], keyed by the code units of the ampersand, the
    two angle brackets, the double quote and the apostrophe. *)
Definition htmlEscapes (char : N) : option (list N) :=
  if (char =? 38)%N then Some (units "&amp;")
  else if (char =? 60)%N then Some (units "&lt;")
  else if (char =? 62)%N then Some (units "&gt;")
  else if (char =? 34)%N then Some (units "&quot;")
  else if (char =? 39)%N then Some (units "&#39;")
  else None.

(** [text.replace(re, (char) => htmlEscapes[char])], where the global
    pattern [re] is the class of those five characters. *)
Definition escapeHtml (text : list N) : list N :=
  flat_map (λ char, default [char] (htmlEscapes char)) text.

(** ** Vocabulary of the further properties *)

(** The header a trusted-proxy setting reads. *)
Definition header_name (h : TrustedProxyHeader) : string :=
  match h with
  | cf_connecting_ip => "cf-connecting-ip"
  | x_real_ip => "x-real-ip"
  | x_forwarded_for => "x-forwarded-for"
  end.

(** The answer to the [n]-th request of a window that ends at [R]. *)
Definition answer (config : RateLimitConfig) (R n : Z) : RateLimitResult :=
  {| allowed := n <=? maxRequests config;
     limit := maxRequests config;
     remaining := Z.max 0 (maxRequests config - n);
     result_resetTime := R |}.

(** Of a run of calls and its answers, the answers given to client [id]. *)
Fixpoint answers_of (id : string)
    (calls : list (World * Request * RateLimitConfig))
    (answers : list RateLimitResult) : list RateLimitResult :=
  match calls, answers with
  | (w, request, config) :: calls', a :: answers' =>
      if decide (getClientId w request (trustedProxyHeader config) = id)
      then a :: answers_of id calls' answers'
      else answers_of id calls' answers'
  | _, _ => []
  end.

(** An origin of the loopback interface: [http] or [https], one of the three
    loopback hosts, and possibly a port in decimal digits. *)
Definition is_loopback_origin (o : string) : Prop :=
  ∃ scheme host port,
    o = scheme +:+ "://" +:+ host +:+ port ∧
    (scheme = "http" ∨ scheme = "https") ∧
    (host = "localhost" ∨ host = "127.0.0.1" ∨ host = "[::1]") ∧
    (port = "" ∨ ∃ d, port = ":" +:+ d ∧ d ≠ "" ∧ all_digits d).

(** The characters of a slug. *)
Definition is_slug_char (c : ascii) : bool :=
  in_class c [("a", "z"); ("0", "9"); ("-", "-")]%char.

(** A request that differs from [request] in one header at most. *)
Definition with_header (request : Request) (name : string)
    (value : option string) : Request :=
  {| headers := match value with
                | Some v => <[name := v]> (headers request)
                | None => delete name (headers request)
                end;
     json := json request |}.

(** The entry a call leaves for its client, from the entry it found. *)
Definition next_entry (w : World) (config : RateLimitConfig)
    (found : option RateLimitEntry) : RateLimitEntry :=
  match found with
  | Some e =>
      if now w >? resetTime e
      then {| count := 1; resetTime := now w + windowSeconds config * 1000 |}
      else {| count := count e + 1; resetTime := resetTime e |}
  | None => {| count := 1; resetTime := now w + windowSeconds config * 1000 |}
  end.

(** The shape of the three [localhostPatterns], for the host [h]. *)
Definition loopback_pattern (h : string) : regex :=
  cats [lit "http"; opt (chr "s"); lit ("://" +:+ h);
        opt (Cat (chr ":") (plus digit))].

(** The five characters [escapeHtml] replaces. *)
Definition is_special (char : N) : bool :=
  ((char =? 38) || (char =? 60) || (char =? 62) || (char =? 34) || (char =? 39))%N.

(** The letters and digits of a slug. *)
Definition is_slug_letter (c : ascii) : bool :=
  in_class c [("a", "z"); ("0", "9")]%char.

(** More example data. *)
Definition other_request : Request :=
  request_with [("origin", "https://example.com");
                ("x-forwarded-for", "172.16.0.2")] None.

Definition example_calls : list (World * Request * RateLimitConfig) :=
  [ (at_time 1100, other_request, example_config);
    (at_time 1200, example_request, example_config);
    (at_time 1300, example_request, example_config);
    (at_time 1400, other_request, example_config);
    (at_time 1500, example_request, example_config);
    (at_time 1600, example_request, example_config) ].

Definition evil_request : Request :=
  request_with [("origin", "https://evil.example.com");
                ("x-forwarded-for", "10.20.30.40")]
               (Some (JObj [("query", JStr "hello")])).

Definition development : ValidateOriginEnv :=
  {| isDevelopment := true; isTest := false |}.

(** The store after the example client has used up the twenty requests of
    the endpoint's configuration. *)
Definition exhausted_store : Store :=
  snd (run_checks (repeat (at_time 1000, example_request, searchConfig) 20)
         empty_store).

(** Keys at which reading an environment object does not answer an
    environment variable: the members every object inherits from
    [Object.prototype], which a read answers when the object has no own
    property of that name, and the flags that [import.meta.env] holds as
    booleans.  [EnvSources] lists the string-valued own properties, so
    [getEnv] is the code at every other key. *)
Definition objectPrototype : list string :=
  ["constructor"; "hasOwnProperty"; "isPrototypeOf"; "propertyIsEnumerable";
   "toLocaleString"; "toString"; "valueOf"; "__proto__";
   "__defineGetter__"; "__defineSetter__";
   "__lookupGetter__"; "__lookupSetter__"].

Definition builtinFlags : list string := ["DEV"; "PROD"; "SSR"].

Definition is_variable_name (key : string) : bool :=
  negb (existsb (String.eqb key) (objectPrototype ++ builtinFlags)%list).

(** An environment that sets the database URL in [process.env] and leaves
    it empty in [import.meta.env]. *)
Definition example_sources : EnvSources :=
  {| importMetaEnv := Some {[ "TURSO_DB_URL" := "" ]};
     processEnv := Some {[ "TURSO_DB_URL" := "libsql://docs.example" ]} |}.


(** * Properties *)

(** ** The platform prelude *)

(** [String.append] does not unfold under [simpl]; these are its equations. *)
Lemma append_String a d s : String a d +:+ s = String a (d +:+ s).
Proof. reflexivity. Qed.

Lemma append_empty s : "" +:+ s = s.
Proof. reflexivity. Qed.

Lemma append_empty_r d : d +:+ "" = d.
Proof.
  induction d as [|a d IH]; rewrite ?append_String, ?append_empty; [done|].
  by rewrite IH.
Qed.

Lemma trimStart_spec s :
  ∃ l, s = l +:+ trimStart s ∧ forallb_string is_white_space l = true ∧
       not_white (first_char (trimStart s)).
Proof.
  induction s as [|c s (l & Hs & Hl & Hf)]; simpl.
  - by exists "".
  - destruct (is_white_space c) eqn:Hc.
    + exists (String c l). rewrite append_String, <-Hs. simpl. by rewrite Hc.
    + exists "". by rewrite append_empty.
Qed.

Lemma trimEnd_spec s :
  ∃ r, s = trimEnd s +:+ r ∧ forallb_string is_white_space r = true ∧
       not_white (last_char (trimEnd s)) ∧
       (trimEnd s ≠ "" -> first_char (trimEnd s) = first_char s).
Proof.
  unfold trimEnd.
  induction s as [|c s (r & Hs & Hr & Hlast & _)]; simpl.
  - by exists "".
  - destruct (is_white_space c && is_empty (trimEnd_by is_white_space s)) eqn:Hc.
    + apply andb_prop in Hc as [Hc Hemp].
      destruct (trimEnd_by is_white_space s); [|done].
      rewrite append_empty in Hs. subst r.
      exists (String c s). simpl. by rewrite Hc, Hr.
    + exists r. rewrite append_String, <-Hs.
      split; [done|]. split; [done|]. split; [|done].
      destruct (trimEnd_by is_white_space s) eqn:Ht; [|done].
      simpl in *. by rewrite andb_true_r in Hc.
Qed.

(** [trim] removes white space at both ends and nothing else. *)
Lemma trim_spec s :
  ∃ l r, s = l +:+ trim s +:+ r ∧
         forallb_string is_white_space l = true ∧
         forallb_string is_white_space r = true ∧
         not_white (first_char (trim s)) ∧ not_white (last_char (trim s)).
Proof.
  unfold trim.
  destruct (trimStart_spec s) as (l & Hs & Hl & Hfirst).
  destruct (trimEnd_spec (trimStart s)) as (r & Ht & Hr & Hlast & Hkeep).
  exists l, r. rewrite <-Ht.
  split; [done|]. split; [done|]. split; [done|]. split; [|done].
  destruct (trimEnd (trimStart s)) eqn:Hempty; [done|].
  rewrite Hkeep; done.
Qed.

(** [parseInt] answers an integer, which [Qfloor] reads back. *)
Lemma number_of_Z_integral z q :
  number_of_Z z = Finite q -> inject_Z (Qfloor q) = q.
Proof.
  unfold number_of_Z. repeat case_match; try done.
  intros [= <-]. by rewrite Qfloor_Z.
Qed.

Lemma parseInt_integral s q : parseInt s = Finite q -> inject_Z (Qfloor q) = q.
Proof.
  unfold parseInt.
  destruct (match trimStart s with
            | String "-" r => (true, r)
            | String "+" r => (false, r)
            | _ => (false, trimStart s)
            end%char) as [negative s2].
  destruct (is_empty (take_while is_digit s2)); [done|].
  apply number_of_Z_integral.
Qed.

(** The derivative matcher decides the language of the pattern. *)
Lemma append_nil_inv s t : s +:+ t = "" -> s = "" ∧ t = "".
Proof. destruct s; [by rewrite append_empty|by rewrite append_String]. Qed.

Lemma nullable_spec r : nullable r = true ↔ matches r "".
Proof.
  split.
  - induction r; simpl; intros H; try done.
    + constructor.
    + apply andb_prop in H as [H1 H2].
      rewrite <-(append_empty ""). constructor; auto.
    + apply orb_prop in H as [H|H]; [apply matches_alt_l|apply matches_alt_r]; auto.
    + constructor.
  - remember "" as s eqn:Hs. induction 1; simpl; try done.
    + apply append_nil_inv in Hs as [-> ->]. by rewrite IHmatches1, IHmatches2.
    + by rewrite IHmatches.
    + rewrite IHmatches; [|done]. apply orb_true_r.
Qed.

Lemma matches_Void s : ¬ matches Void s.
Proof. inversion 1. Qed.

Lemma matches_Eps s : matches Eps s -> s = "".
Proof. by inversion 1. Qed.

Lemma cat_spec a b s : matches (cat a b) s ↔ matches (Cat a b) s.
Proof.
  split.
  - destruct a, b; simpl; intros H;
      first [ exact H
            | by apply matches_Void in H
            | rewrite <-(append_empty s); constructor; [constructor|exact H]
            | rewrite <-(append_empty_r s); constructor; [exact H|constructor] ].
  - inversion 1 as [| |a' b' s1 s2 H1 H2| | | |]; subst.
    destruct a, b; simpl;
      first [ by apply matches_Void in H1
            | by apply matches_Void in H2
            | apply matches_Eps in H1 as ->; rewrite append_empty; exact H2
            | apply matches_Eps in H2 as ->; rewrite append_empty_r; exact H1
            | by constructor ].
Qed.

Lemma alt_spec a b s : matches (alt a b) s ↔ matches (Alt a b) s.
Proof.
  split.
  - destruct a, b; simpl; intros H;
      first [ exact H
            | by apply matches_Void in H
            | by apply matches_alt_r
            | by apply matches_alt_l ].
  - inversion 1 as [| | |a' b' s' H1|a' b' s' H1| |]; subst;
      destruct a, b; simpl;
      first [ by apply matches_Void in H1
            | exact H1
            | by apply matches_alt_l
            | by apply matches_alt_r ].
Qed.

Lemma append_cons_inv s t c u :
  s +:+ t = String c u ->
  (s = "" ∧ t = String c u) ∨ (∃ s', s = String c s' ∧ u = s' +:+ t).
Proof.
  destruct s as [|a s]; [rewrite append_empty; by left|].
  rewrite append_String. intros [= -> <-]. right. eauto.
Qed.

Lemma matches_Cat_inv a b u :
  matches (Cat a b) u -> ∃ s t, u = s +:+ t ∧ matches a s ∧ matches b t.
Proof. inversion 1; subst; eauto. Qed.

Lemma matches_Alt_inv a b u :
  matches (Alt a b) u -> matches a u ∨ matches b u.
Proof. inversion 1; subst; eauto. Qed.

Lemma matches_Star_inv a c u :
  matches (Star a) (String c u) ->
  ∃ s t, u = s +:+ t ∧ matches a (String c s) ∧ matches (Star a) t.
Proof.
  inversion 1 as [| | | | | |a' c' s t Ha Hb Heq]; subst.
  eauto.
Qed.

Lemma deriv_spec c r s : matches (deriv c r) s ↔ matches r (String c s).
Proof.
  revert s. induction r as [| |cls|a IHa b IHb|a IHa b IHb|a IHa]; intros s; simpl.
  - split; inversion 1.
  - split; inversion 1.
  - destruct (in_class c cls) eqn:Hc; split.
    + intros ->%matches_Eps. by constructor.
    + inversion 1; subst. constructor.
    + inversion 1.
    + inversion 1; subst. congruence.
  - rewrite alt_spec. split.
    + intros [H|H]%matches_Alt_inv.
      * apply cat_spec, matches_Cat_inv in H as (s1 & s2 & -> & Ha & Hb).
        rewrite <-append_String. constructor; [by apply IHa|done].
      * destruct (nullable a) eqn:Hn; [|by apply matches_Void in H].
        rewrite <-(append_empty (String c s)).
        constructor; [by apply nullable_spec|by apply IHb].
    + intros (s1 & s2 & Heq & Ha & Hb)%matches_Cat_inv.
      symmetry in Heq.
      apply append_cons_inv in Heq as [[-> ->]|(s' & -> & ->)].
      * apply matches_alt_r. apply nullable_spec in Ha as ->. by apply IHb.
      * apply matches_alt_l, cat_spec. constructor; [by apply IHa|done].
  - rewrite alt_spec. split.
    + intros [H|H]%matches_Alt_inv;
        [apply matches_alt_l, IHa|apply matches_alt_r, IHb]; done.
    + intros [H|H]%matches_Alt_inv;
        [apply matches_alt_l, IHa|apply matches_alt_r, IHb]; done.
  - rewrite cat_spec. split.
    + intros (s1 & s2 & -> & Ha & Hb)%matches_Cat_inv.
      rewrite <-append_String. constructor; [by apply IHa|done].
    + intros (s1 & s2 & -> & Ha & Hb)%matches_Star_inv.
      constructor; [by apply IHa|done].
Qed.

Lemma test_spec r s : test r s = true ↔ matches r s.
Proof.
  revert r. induction s as [|c s IH]; intros r; simpl.
  - apply nullable_spec.
  - rewrite IH. apply deriv_spec.
Qed.

(** ** The store *)

Lemma lookup_entry_Some σ id e :
  lookup_entry σ id = Some e ->
  ∃ r, rateLimitStore σ !! id = Some r ∧ objects σ !! r = Some e.
Proof.
  unfold lookup_entry, store_get.
  destruct (rateLimitStore σ !! id) as [r|] eqn:Hr; simpl; [|discriminate].
  destruct (objects σ !! r) as [e'|] eqn:He; simpl; [|discriminate].
  intros [= <-]. eauto.
Qed.

Lemma lookup_entry_intro σ id r e :
  rateLimitStore σ !! id = Some r -> objects σ !! r = Some e ->
  lookup_entry σ id = Some e.
Proof.
  unfold lookup_entry, store_get. intros -> ; simpl. intros ->. reflexivity.
Qed.

Section StoreLemmas.

Context (w : World) (request : Request) (config : RateLimitConfig) (σ : Store).

Let clientId := getClientId w request (trustedProxyHeader config).
Let fresh_entry := {| count := 1; resetTime := now w + windowSeconds config * 1000 |}.

(** A call that opens a window. *)
Lemma checkRateLimit_opens :
  opens_window w σ clientId ->
  checkRateLimit w request config σ =
    let r' := fresh (dom (objects σ)) in
    ({| allowed := 1 <=? maxRequests config;
        limit := maxRequests config;
        remaining := Z.max 0 (maxRequests config - 1);
        result_resetTime := now w + windowSeconds config * 1000 |},
     {| objects := <[r' := fresh_entry]> (objects σ);
        rateLimitStore := <[clientId := r']> (rateLimitStore σ) |}).
Proof.
  unfold opens_window, lookup_entry, checkRateLimit. fold clientId.
  destruct (store_get σ clientId) as [[r e]|] eqn:Hget; simpl.
  - intros Hexp. assert ((now w >? resetTime e) = true) as -> by lia.
    simpl. by rewrite insert_insert_eq.
  - intros _. by rewrite insert_insert_eq.
Qed.

(** A call inside the current window. *)
Lemma checkRateLimit_continues r e :
  rateLimitStore σ !! clientId = Some r -> objects σ !! r = Some e ->
  now w <= resetTime e ->
  checkRateLimit w request config σ =
    ({| allowed := count e + 1 <=? maxRequests config;
        limit := maxRequests config;
        remaining := Z.max 0 (maxRequests config - (count e + 1));
        result_resetTime := resetTime e |},
     {| objects := <[r := {| count := count e + 1; resetTime := resetTime e |}]> (objects σ);
        rateLimitStore := rateLimitStore σ |}).
Proof.
  intros Hr He Hle. unfold checkRateLimit, store_get. fold clientId.
  rewrite Hr. simpl. rewrite He. simpl.
  assert ((now w >? resetTime e) = false) as -> by lia.
  reflexivity.
Qed.


(** Every call does one or the other. *)
Lemma opens_or_continues :
  opens_window w σ clientId ∨
  ∃ r e, rateLimitStore σ !! clientId = Some r ∧ objects σ !! r = Some e ∧
         now w <= resetTime e.
Proof.
  unfold opens_window.
  destruct (lookup_entry σ clientId) as [e|] eqn:He; [|by left].
  destruct (Z_lt_le_dec (resetTime e) (now w)); [by left|right].
  apply lookup_entry_Some in He as (r & Hr & He). eauto.
Qed.

(** The entry of the calling client after the call. *)
Lemma checkRateLimit_own_entry :
  lookup_entry (snd (checkRateLimit w request config σ)) clientId =
    Some (match lookup_entry σ clientId with
          | Some e =>
              if now w >? resetTime e then fresh_entry
              else {| count := count e + 1; resetTime := resetTime e |}
          | None => fresh_entry
          end).
Proof.
  destruct opens_or_continues as [Hopen|(r & e & Hr & He & Hle)].
  - rewrite checkRateLimit_opens by done. simpl.
    unfold opens_window in Hopen.
    assert (lookup_entry
              {| objects := <[fresh (dom (objects σ)) := fresh_entry]> (objects σ);
                 rateLimitStore := <[clientId := fresh (dom (objects σ))]> (rateLimitStore σ) |}
              clientId = Some fresh_entry) as ->.
    { eapply lookup_entry_intro; simpl; apply lookup_insert_eq. }
    destruct (lookup_entry σ clientId) as [e|]; [|done].
    by assert ((now w >? resetTime e) = true) as -> by lia.
  - rewrite (checkRateLimit_continues r e) by done. simpl.
    rewrite (lookup_entry_intro σ clientId r e) by done.
    assert ((now w >? resetTime e) = false) as -> by lia.
    eapply lookup_entry_intro; simpl; [done|apply lookup_insert_eq].
Qed.

(** The result is read off the entry the call leaves behind. *)
Lemma checkRateLimit_result :
  ∃ e', lookup_entry (snd (checkRateLimit w request config σ)) clientId = Some e' ∧
        fst (checkRateLimit w request config σ) =
          {| allowed := count e' <=? maxRequests config;
             limit := maxRequests config;
             remaining := Z.max 0 (maxRequests config - count e');
             result_resetTime := resetTime e' |}.
Proof.
  eexists. split; [apply checkRateLimit_own_entry|].
  destruct opens_or_continues as [Hopen|(r & e & Hr & He & Hle)].
  - rewrite checkRateLimit_opens by done. simpl.
    unfold opens_window in Hopen.
    destruct (lookup_entry σ clientId) as [e|]; [|done].
    by assert ((now w >? resetTime e) = true) as -> by lia.
  - rewrite (checkRateLimit_continues r e) by done. simpl.
    rewrite (lookup_entry_intro σ clientId r e) by done.
    by assert ((now w >? resetTime e) = false) as -> by lia.
Qed.

(** Counters in the heap stay positive. *)
Lemma checkRateLimit_counts :
  (∀ r e, objects σ !! r = Some e -> 1 <= count e) ->
  ∀ r e, objects (snd (checkRateLimit w request config σ)) !! r = Some e ->
         1 <= count e.
Proof.
  intros Hpos r e.
  destruct opens_or_continues as [Hopen|(r0 & e0 & Hr & He & Hle)].
  - rewrite checkRateLimit_opens by done. simpl.
    rewrite lookup_insert. case_decide; [intros [= <-]; simpl; lia|eauto].
  - rewrite (checkRateLimit_continues r0 e0) by done. simpl.
    rewrite lookup_insert. case_decide; [|eauto].
    intros [= <-]; simpl. specialize (Hpos _ _ He). lia.
Qed.

(** One entry per client clientId is preserved by a call. *)
Lemma checkRateLimit_wf :
  store_wf σ -> store_wf (snd (checkRateLimit w request config σ)).
Proof.
  intros [Hlive Hinj].
  assert (∀ clientId' r, rateLimitStore σ !! clientId' = Some r ->
                   r ≠ fresh (dom (objects σ))) as Hfresh.
  { intros clientId' r Hr ->. apply Hlive in Hr.
    apply elem_of_dom in Hr. by apply is_fresh in Hr. }
  destruct opens_or_continues as [Hopen|(r0 & e0 & Hr & He & Hle)].
  - rewrite checkRateLimit_opens by done. split; simpl.
    + intros clientId' r. destruct (decide (clientId = clientId')) as [<-|Hne].
      * rewrite lookup_insert_eq. intros [= <-]. by rewrite lookup_insert_eq.
      * rewrite lookup_insert_ne by done. intros Hr'.
        rewrite lookup_insert_ne by (symmetry; eauto). eauto.
    + intros id1 id2 r.
      destruct (decide (clientId = id1)) as [<-|Hne1];
        destruct (decide (clientId = id2)) as [<-|Hne2]; [done|..].
      * rewrite lookup_insert_eq, lookup_insert_ne by done.
        intros [= <-] Hr'. by apply Hfresh in Hr'.
      * rewrite lookup_insert_eq, lookup_insert_ne by done.
        intros Hr' [= <-]. by apply Hfresh in Hr'.
      * rewrite !lookup_insert_ne by done. apply Hinj.
  - rewrite (checkRateLimit_continues r0 e0) by done. split; simpl; [|done].
    intros clientId' r Hr'. rewrite lookup_insert. case_decide; eauto.
Qed.

(** A call leaves the entries of all other clients alone. *)
Lemma checkRateLimit_frame clientId' :
  store_wf σ -> clientId' ≠ clientId ->
  lookup_entry (snd (checkRateLimit w request config σ)) clientId' = lookup_entry σ clientId'.
Proof.
  intros [Hlive Hinj] Hne.
  destruct opens_or_continues as [Hopen|(r0 & e0 & Hr & He & Hle)].
  - rewrite checkRateLimit_opens by done.
    unfold lookup_entry, store_get; simpl.
    rewrite lookup_insert_ne by done.
    destruct (rateLimitStore σ !! clientId') as [r|] eqn:Hr'; simpl; [|done].
    rewrite lookup_insert_ne; [done|].
    intros <-. apply Hlive in Hr'. apply elem_of_dom in Hr'.
    by apply is_fresh in Hr'.
  - rewrite (checkRateLimit_continues r0 e0) by done.
    unfold lookup_entry, store_get; simpl.
    destruct (rateLimitStore σ !! clientId') as [r|] eqn:Hr'; simpl; [|done].
    rewrite lookup_insert_ne; [done|].
    intros <-. apply Hne. eauto.
Qed.

End StoreLemmas.

Lemma sweep_lookup t σ id :
  lookup_entry (sweep t σ) id =
    match lookup_entry σ id with
    | Some e => if t >? resetTime e then None else Some e
    | None => None
    end.
Proof.
  unfold lookup_entry, store_get, sweep, expired; simpl.
  rewrite map_lookup_filter.
  destruct (rateLimitStore σ !! id) as [r|]; simpl; [|done].
  destruct (objects σ !! r) as [e|] eqn:He; simpl.
  - destruct (t >? resetTime e); simpl; [done|]. by rewrite He.
  - by rewrite He.
Qed.

Lemma sweep_wf t σ : store_wf σ -> store_wf (sweep t σ).
Proof.
  intros [Hlive Hinj]. split; simpl.
  - intros id r [Hr _]%map_lookup_filter_Some. eauto.
  - intros id1 id2 r [H1 _]%map_lookup_filter_Some [H2 _]%map_lookup_filter_Some.
    eauto.
Qed.

Lemma store_wf_empty : store_wf empty_store.
Proof. split; simpl; intros *; by rewrite lookup_empty. Qed.

(** What holds of every state the process can be in. *)
Lemma reachable_inv σ :
  reachable σ ->
  store_wf σ ∧ ∀ r e, objects σ !! r = Some e -> 1 <= count e.
Proof.
  induction 1 as [|w request config σ _ [IHwf IHpos]|t σ _ [IHwf IHpos]].
  - split; [apply store_wf_empty|]. simpl. intros r e. by rewrite lookup_empty.
  - split; [by apply checkRateLimit_wf|by apply checkRateLimit_counts].
  - split; [by apply sweep_wf|done].
Qed.

(** A call that opens a window leaves a fresh entry, already counted once. *)
Lemma checkRateLimit_new_window w request config σ :
  let id := getClientId w request (trustedProxyHeader config) in
  let R := now w + windowSeconds config * 1000 in
  opens_window w σ id ->
  lookup_entry (snd (checkRateLimit w request config σ)) id
    = Some {| count := 0 + 1; resetTime := R |} ∧
  fst (checkRateLimit w request config σ)
    = {| allowed := 1 <=? maxRequests config;
         limit := maxRequests config;
         remaining := Z.max 0 (maxRequests config - 1);
         result_resetTime := R |}.
Proof.
  intros id R Hopen. split.
  - rewrite checkRateLimit_own_entry. fold id. unfold opens_window in Hopen.
    destruct (lookup_entry σ id) as [e|]; [|done].
    by assert ((now w >? resetTime e) = true) as -> by lia.
  - by rewrite checkRateLimit_opens.
Qed.

(** A call inside the window of an entry increments it in place. *)
Lemma checkRateLimit_in_window w request config σ e :
  let id := getClientId w request (trustedProxyHeader config) in
  lookup_entry σ id = Some e -> now w <= resetTime e ->
  lookup_entry (snd (checkRateLimit w request config σ)) id
    = Some {| count := count e + 1; resetTime := resetTime e |} ∧
  fst (checkRateLimit w request config σ)
    = {| allowed := count e + 1 <=? maxRequests config;
         limit := maxRequests config;
         remaining := Z.max 0 (maxRequests config - (count e + 1));
         result_resetTime := resetTime e |}.
Proof.
  intros id He Hle. split.
  - rewrite checkRateLimit_own_entry. fold id. rewrite He.
    by assert ((now w >? resetTime e) = false) as -> by lia.
  - apply lookup_entry_Some in He as (r & Hr & He).
    by rewrite (checkRateLimit_continues _ _ _ _ r e).
Qed.

(** ** Claims about the rate limiter *)

(** C2.  A call that finds no entry for its client id, or an entry whose
    [resetTime] has passed, installs a fresh entry ([count] 0,
    [resetTime = now + windowSeconds * 1000]) and increments it; every call
    answers [allowed] iff the incremented count is at most [maxRequests] and
    [remaining = max(0, maxRequests - count)].  Four calls of one client id
    inside one window leave counts 1, 2, 3, 4; with [maxRequests = 3] and
    [windowSeconds = 60] they answer allowed with 2, 1, 0 remaining and then
    refused with 0 remaining, the refused request being counted too. *)
Theorem checkRateLimit_fixed_window
    (w1 w2 w3 w4 : World) (request1 request2 request3 request4 : Request)
    (config : RateLimitConfig) (σ0 : Store) :
  let id := getClientId w1 request1 (trustedProxyHeader config) in
  let R := now w1 + windowSeconds config * 1000 in
  let c1 := checkRateLimit w1 request1 config σ0 in
  let c2 := checkRateLimit w2 request2 config (snd c1) in
  let c3 := checkRateLimit w3 request3 config (snd c2) in
  let c4 := checkRateLimit w4 request4 config (snd c3) in
  let answer (n : Z) :=
    {| allowed := n <=? maxRequests config;
       limit := maxRequests config;
       remaining := Z.max 0 (maxRequests config - n);
       result_resetTime := R |} in
  opens_window w1 σ0 id ->
  getClientId w2 request2 (trustedProxyHeader config) = id ->
  getClientId w3 request3 (trustedProxyHeader config) = id ->
  getClientId w4 request4 (trustedProxyHeader config) = id ->
  now w2 <= R -> now w3 <= R -> now w4 <= R ->
  (lookup_entry (snd c1) id = Some {| count := 0 + 1; resetTime := R |} ∧
   lookup_entry (snd c2) id = Some {| count := 2; resetTime := R |} ∧
   lookup_entry (snd c3) id = Some {| count := 3; resetTime := R |} ∧
   lookup_entry (snd c4) id = Some {| count := 4; resetTime := R |}) ∧
  (fst c1 = answer 1 ∧ fst c2 = answer 2 ∧ fst c3 = answer 3 ∧ fst c4 = answer 4) ∧
  (maxRequests config = 3 -> windowSeconds config = 60 ->
   (allowed (fst c1), remaining (fst c1)) = (true, 2) ∧
   (allowed (fst c2), remaining (fst c2)) = (true, 1) ∧
   (allowed (fst c3), remaining (fst c3)) = (true, 0) ∧
   (allowed (fst c4), remaining (fst c4)) = (false, 0)).
Proof.
  intros id R c1 c2 c3 c4 answer Hopen Hid2 Hid3 Hid4 Ht2 Ht3 Ht4.
  destruct (checkRateLimit_new_window w1 request1 config σ0 Hopen) as [He1 Hr1].
  fold id R c1 in He1, Hr1.
  destruct (checkRateLimit_in_window w2 request2 config (snd c1) _
              ltac:(rewrite Hid2; exact He1) Ht2) as [He2 Hr2].
  rewrite Hid2 in He2. fold c2 in He2, Hr2. simpl in He2, Hr2.
  destruct (checkRateLimit_in_window w3 request3 config (snd c2) _
              ltac:(rewrite Hid3; exact He2) Ht3) as [He3 Hr3].
  rewrite Hid3 in He3. fold c3 in He3, Hr3. simpl in He3, Hr3.
  destruct (checkRateLimit_in_window w4 request4 config (snd c3) _
              ltac:(rewrite Hid4; exact He3) Ht4) as [He4 Hr4].
  rewrite Hid4 in He4. fold c4 in He4, Hr4. simpl in He4, Hr4.
  split; [done|]. split; [done|].
  intros Hmax Hwin. rewrite Hr1, Hr2, Hr3, Hr4. simpl. rewrite Hmax. done.
Qed.

Lemma checkRateLimit_fixed_window_witness :
  (allowed (fst (checkRateLimit (at_time 1000) example_request example_config empty_store)),
   remaining (fst (checkRateLimit (at_time 1000) example_request example_config empty_store)))
    = (true, 2) ∧
  (allowed (fst (checkRateLimit (at_time 2000) example_request example_config example_store)),
   remaining (fst (checkRateLimit (at_time 2000) example_request example_config example_store)))
    = (true, 1).
Proof.
  destruct (checkRateLimit_fixed_window
              (at_time 1000) (at_time 2000) (at_time 3000) (at_time 61000)
              example_request example_request example_request example_request
              example_config empty_store) as (_ & _ & H).
  - vm_compute. exact I.
  - reflexivity.
  - reflexivity.
  - reflexivity.
  - vm_compute. discriminate.
  - vm_compute. discriminate.
  - vm_compute. discriminate.
  - destruct H as (H1 & H2 & _); [reflexivity|reflexivity|].
    split; [exact H1|exact H2].
Defined.

(** C6.  With [maxRequests] zero or negative, no request of any client is
    allowed, in whatever state the process is. *)
Theorem checkRateLimit_nonpositive_limit
    (w : World) (request : Request) (config : RateLimitConfig) (σ : Store) :
  reachable σ ->
  maxRequests config <= 0 ->
  allowed (fst (checkRateLimit w request config σ)) = false.
Proof.
  intros Hreach Hmax.
  destruct (checkRateLimit_result w request config σ) as (e' & He' & ->). simpl.
  apply lookup_entry_Some in He' as (r & _ & He').
  destruct (reachable_inv _ (reachable_check w request config σ Hreach)) as [_ Hpos].
  specialize (Hpos _ _ He'). lia.
Qed.

Lemma checkRateLimit_nonpositive_limit_witness :
  allowed (fst (checkRateLimit (at_time 2000) example_request closed_config example_store))
    = false.
Proof.
  apply checkRateLimit_nonpositive_limit.
  - apply reachable_check, reachable_start.
  - vm_compute. discriminate.
Defined.

(** C7, as the code has it.  With [windowSeconds = 0] a window ends at the
    timestamp that opened it, and the expiry test is the strict
    [now > resetTime]: after a call that opened a window at [t1], the next
    call of the client opens a new one (count 1, allowed for
    [maxRequests >= 1], [maxRequests - 1] remaining) when its timestamp is
    later than [t1], and is counted in the same window (count 2) when its
    timestamp is [t1] again. *)
Theorem checkRateLimit_zero_window
    (w1 w2 : World) (request1 request2 : Request)
    (config : RateLimitConfig) (σ0 : Store) :
  let id := getClientId w1 request1 (trustedProxyHeader config) in
  let c1 := checkRateLimit w1 request1 config σ0 in
  let c2 := checkRateLimit w2 request2 config (snd c1) in
  windowSeconds config = 0 ->
  1 <= maxRequests config ->
  opens_window w1 σ0 id ->
  getClientId w2 request2 (trustedProxyHeader config) = id ->
  (lookup_entry (snd c1) id = Some {| count := 1; resetTime := now w1 |} ∧
   allowed (fst c1) = true ∧ remaining (fst c1) = maxRequests config - 1) ∧
  (now w1 < now w2 ->
   lookup_entry (snd c2) id = Some {| count := 1; resetTime := now w2 |} ∧
   allowed (fst c2) = true ∧ remaining (fst c2) = maxRequests config - 1) ∧
  (now w2 <= now w1 ->
   lookup_entry (snd c2) id = Some {| count := 2; resetTime := now w1 |} ∧
   allowed (fst c2) = (2 <=? maxRequests config) ∧
   remaining (fst c2) = Z.max 0 (maxRequests config - 2)).
Proof.
  intros id c1 c2 Hwin Hmax Hopen Hid2.
  destruct (checkRateLimit_new_window w1 request1 config σ0 Hopen) as [He1 Hr1].
  fold id c1 in He1, Hr1. rewrite Hwin in He1, Hr1.
  replace (now w1 + 0 * 1000) with (now w1) in He1, Hr1 by lia.
  split; [|split].
  - rewrite He1, Hr1. simpl. repeat split; lia.
  - intros Hlt.
    destruct (checkRateLimit_new_window w2 request2 config (snd c1)) as [He2 Hr2].
    { unfold opens_window. rewrite Hid2, He1. simpl. lia. }
    rewrite Hid2 in He2. fold c2 in He2, Hr2. rewrite Hwin in He2, Hr2.
    replace (now w2 + 0 * 1000) with (now w2) in He2, Hr2 by lia.
    rewrite He2, Hr2. simpl. repeat split; lia.
  - intros Hle.
    destruct (checkRateLimit_in_window w2 request2 config (snd c1) _
                ltac:(rewrite Hid2; exact He1) Hle) as [He2 Hr2].
    rewrite Hid2 in He2. fold c2 in He2, Hr2.
    rewrite He2, Hr2. simpl. done.
Qed.

Lemma checkRateLimit_zero_window_witness :
  lookup_entry
    (snd (checkRateLimit (at_time 1001) example_request zero_window_config
            (snd (checkRateLimit (at_time 1000) example_request zero_window_config
                    empty_store))))
    "10.20.30.40"
  = Some {| count := 1; resetTime := 1001 |}.
Proof.
  destruct (checkRateLimit_zero_window (at_time 1000) (at_time 1001)
              example_request example_request zero_window_config empty_store)
    as (_ & H & _).
  - reflexivity.
  - vm_compute. discriminate.
  - vm_compute. exact I.
  - reflexivity.
  - destruct H as (H & _); [reflexivity|]. exact H.
Defined.

(** C7, as the spec states it, fails: two calls of one client at the same
    timestamp under [windowSeconds = 0] share a window, and with
    [maxRequests = 1] the second is refused. *)
Lemma zero_window_same_timestamp_shares_window :
  opens_window (at_time 1000) empty_store "10.20.30.40" ∧
  getClientId (at_time 1000) example_request (Some x_forwarded_for) = "10.20.30.40" ∧
  allowed (fst (checkRateLimit (at_time 1000) example_request zero_window_config
                  (snd (checkRateLimit (at_time 1000) example_request
                          zero_window_config empty_store))))
    = false ∧
  lookup_entry
    (snd (checkRateLimit (at_time 1000) example_request zero_window_config
            (snd (checkRateLimit (at_time 1000) example_request zero_window_config
                    empty_store))))
    "10.20.30.40"
  = Some {| count := 2; resetTime := 1000 |}.
Proof. vm_compute. done. Qed.

(** C8.  One entry per client id (each id of the map refers to one live
    entry object that no other id shares) is preserved by every call and by
    the sweep; and across either, an entry keeps its window with a count that
    has not decreased, unless the clock has passed its [resetTime], when a
    call of its client replaces it by a fresh entry and the sweep deletes
    it. *)
Theorem store_invariant (σ : Store) :
  store_wf σ ->
  (∀ w request config,
     store_wf (snd (checkRateLimit w request config σ)) ∧
     ∀ id e, lookup_entry σ id = Some e ->
       (∃ e', lookup_entry (snd (checkRateLimit w request config σ)) id = Some e' ∧
              resetTime e' = resetTime e ∧ count e <= count e') ∨
       (resetTime e < now w ∧
        lookup_entry (snd (checkRateLimit w request config σ)) id
          = Some {| count := 1; resetTime := now w + windowSeconds config * 1000 |})) ∧
  (∀ t,
     store_wf (sweep t σ) ∧
     ∀ id e, lookup_entry σ id = Some e ->
       lookup_entry (sweep t σ) id = Some e ∨
       (resetTime e < t ∧ lookup_entry (sweep t σ) id = None)).
Proof.
  intros Hwf. split.
  - intros w request config. split; [by apply checkRateLimit_wf|].
    intros id e He.
    destruct (decide (id = getClientId w request (trustedProxyHeader config)))
      as [->|Hne].
    + rewrite checkRateLimit_own_entry, He.
      destruct (now w >? resetTime e) eqn:Hexp.
      * right. split; [lia|done].
      * left. eexists. split; [done|]. simpl. lia.
    + left. exists e. rewrite checkRateLimit_frame by done. done.
  - intros t. split; [by apply sweep_wf|].
    intros id e He. rewrite sweep_lookup, He.
    destruct (t >? resetTime e) eqn:Hexp; [right|left]; [split; [lia|done]|done].
Qed.

Lemma store_invariant_witness :
  store_wf (sweep 70000 example_store) ∧
  lookup_entry (sweep 70000 example_store) "10.20.30.40" = None.
Proof.
  destruct (store_invariant example_store) as [_ H].
  - apply checkRateLimit_wf, store_wf_empty.
  - destruct (H 70000) as [Hwf Hmono]. split; [exact Hwf|].
    destruct (Hmono "10.20.30.40" {| count := 1; resetTime := 61000 |})
      as [Hkept|[_ Hgone]].
    + reflexivity.
    + vm_compute in Hkept. discriminate.
    + exact Hgone.
Defined.

(** ** Claims about origin validation *)

Section Origin.

Context (parse_url : string -> option URL) (nodeEnv : string).

Lemma is_empty_spec s : is_empty s = true ↔ s = "".
Proof. destruct s; simpl; split; congruence. Qed.

(** The decision of [validateOrigin] once the request origin is known. *)
Lemma validateOrigin_decision request siteUrl envOverride o :
  let currentEnv := default (env nodeEnv) envOverride in
  requestOrigin parse_url request = Ok (Some o) ->
  o ≠ "" ->
  validateOrigin parse_url nodeEnv request siteUrl envOverride =
    Ok (match siteUrl with
        | Some u => String.eqb o (origin u)
        | None => false
        end
        || (isDevelopment currentEnv || isTest currentEnv)
           && existsb (λ pattern, test pattern o) localhostPatterns).
Proof.
  intros currentEnv Hro Hne. unfold validateOrigin. rewrite Hro. simpl.
  destruct (is_empty o) eqn:Hemp; [by apply is_empty_spec in Hemp|].
  fold currentEnv.
  destruct siteUrl as [u|]; [destruct (String.eqb o (origin u))|]; simpl;
    by destruct (isDevelopment currentEnv || isTest currentEnv).
Qed.

(** C1.  In production mode a request whose origin, read from the [Origin]
    header or derived from the [Referer], is any string other than the site
    origin is rejected: a longer string containing it, a part of it, a
    sibling subdomain or a look-alike all differ from it.  Only the site
    origin itself is accepted. *)
Theorem validateOrigin_production_exact
    (request : Request) (site : URL)
    (envOverride : option ValidateOriginEnv) (o : string) :
  let currentEnv := default (env nodeEnv) envOverride in
  isDevelopment currentEnv = false ->
  isTest currentEnv = false ->
  requestOrigin parse_url request = Ok (Some o) ->
  (o ≠ origin site ->
   validateOrigin parse_url nodeEnv request (Some site) envOverride = Ok false) ∧
  (validateOrigin parse_url nodeEnv request (Some site) envOverride = Ok true ->
   o = origin site).
Proof.
  intros currentEnv Hdev Htest Hro.
  assert (validateOrigin parse_url nodeEnv request (Some site) envOverride
          = Ok (negb (is_empty o) && String.eqb o (origin site))) as ->.
  { destruct (is_empty o) eqn:Hemp.
    - unfold validateOrigin. rewrite Hro. simpl. rewrite Hemp.
      fold currentEnv. by rewrite Hdev, Htest.
    - rewrite (validateOrigin_decision _ _ _ o) by
        (try done; intros ->; discriminate).
      fold currentEnv. rewrite Hdev, Htest. simpl. by rewrite orb_false_r. }
  split.
  - intros Hne. apply String.eqb_neq in Hne. rewrite Hne.
    by rewrite andb_false_r.
  - intros [= [_ Heq]%andb_prop]. by apply String.eqb_eq.
Qed.

(** C3, as the code has it.  A request origin that is non-empty and equal
    to [siteUrl.origin] as a string is accepted in every environment.  The
    request origin is the [Origin] header verbatim when that is non-empty,
    and otherwise the parsed [Referer]'s origin. *)
Theorem validateOrigin_site_origin
    (request : Request) (site : URL)
    (envOverride : option ValidateOriginEnv) (o : string) :
  requestOrigin parse_url request = Ok (Some o) ->
  o ≠ "" ->
  o = origin site ->
  validateOrigin parse_url nodeEnv request (Some site) envOverride = Ok true.
Proof.
  intros Hro Hne ->.
  rewrite (validateOrigin_decision _ _ _ (origin site)) by done.
  by rewrite String.eqb_refl.
Qed.

(** The request origin, by cases on the two headers. *)
Lemma requestOrigin_origin_header request o :
  headers request !! "origin" = Some o -> o ≠ "" ->
  requestOrigin parse_url request = Ok (Some o).
Proof.
  intros Ho Hne. unfold requestOrigin. rewrite Ho. simpl.
  destruct (is_empty o) eqn:Hemp; [by apply is_empty_spec in Hemp|done].
Qed.

Lemma requestOrigin_referer request r :
  truthy (headers request !! "origin") = false ->
  headers request !! "referer" = Some r -> r ≠ "" ->
  requestOrigin parse_url request =
    match parse_url r with
    | Some u => Ok (Some (origin u))
    | None => Throw (TypeError "Invalid URL")
    end.
Proof.
  intros Ho Hr Hne. unfold requestOrigin. rewrite Ho, Hr. simpl.
  destruct (is_empty r) eqn:Hemp; [by apply is_empty_spec in Hemp|done].
Qed.

Context (Client : Type) (getTursoClient : result Client)
        (search : Client -> string -> Z -> result (list JSON)).

(** C5, as the code has it.  With no usable [Origin] header, a [Referer]
    that is non-empty and does not parse makes [validateOrigin] throw, and
    the exception leaves [POST] too, which calls it outside any [try]. *)
Theorem validateOrigin_malformed_referer
    (w : World) (request : Request) (siteUrl : option URL)
    (envOverride : option ValidateOriginEnv) (σ : Store) (r : string) :
  truthy (headers request !! "origin") = false ->
  headers request !! "referer" = Some r ->
  r ≠ "" ->
  parse_url r = None ->
  ∃ e,
    validateOrigin parse_url nodeEnv request siteUrl envOverride = Throw e ∧
    POST parse_url nodeEnv Client getTursoClient search w request siteUrl σ
      = Throw e.
Proof.
  intros Ho Hr Hne Hparse.
  exists (TypeError "Invalid URL").
  unfold POST, validateOrigin.
  rewrite (requestOrigin_referer request r) by done.
  by rewrite Hparse.
Qed.

End Origin.

Lemma validateOrigin_production_exact_witness :
  validateOrigin URL_new "production"
    (request_with [("origin", "https://evil.example.com")] None)
    (Some example_site) (Some production) = Ok false.
Proof.
  apply (validateOrigin_production_exact URL_new "production"
           (request_with [("origin", "https://evil.example.com")] None)
           example_site (Some production) "https://evil.example.com").
  - reflexivity.
  - reflexivity.
  - reflexivity.
  - discriminate.
Defined.

Lemma validateOrigin_site_origin_witness :
  validateOrigin URL_new "production"
    (request_with [("referer", "https://EXAMPLE.COM:443/docs#section-1")] None)
    (Some example_site) None = Ok true.
Proof.
  apply (validateOrigin_site_origin URL_new "production" _ _ _ "https://example.com").
  - reflexivity.
  - discriminate.
  - reflexivity.
Defined.

Lemma validateOrigin_malformed_referer_witness :
  ∃ e,
    validateOrigin URL_new "production"
      (request_with [("referer", "not-a-valid-url")] None)
      (Some example_site) (Some production) = Throw e ∧
    POST URL_new "production" unit (Ok ()) (λ _ _ _, Ok [])
      (at_time 1000) (request_with [("referer", "not-a-valid-url")] None)
      (Some example_site) empty_store = Throw e.
Proof.
  apply (validateOrigin_malformed_referer URL_new "production" unit (Ok ())
           (λ _ _ _, Ok []) (at_time 1000)
           (request_with [("referer", "not-a-valid-url")] None)
           (Some example_site) (Some production) empty_store "not-a-valid-url").
  - reflexivity.
  - reflexivity.
  - discriminate.
  - reflexivity.
Defined.

(** C3, as the spec states it, fails: an [Origin] header is compared
    verbatim, so for the site [https://example.com] the headers
    [https://EXAMPLE.COM] and [https://example.com:443], which denote the
    same origin, are rejected in production. *)
Lemma validateOrigin_origin_header_verbatim :
  URL_new "https://example.com" = Some example_site ∧
  same_origin "https://EXAMPLE.COM" (origin example_site) ∧
  validateOrigin URL_new "production"
    (request_with [("origin", "https://EXAMPLE.COM")] None)
    (Some example_site) None = Ok false ∧
  same_origin "https://example.com:443" (origin example_site) ∧
  validateOrigin URL_new "production"
    (request_with [("origin", "https://example.com:443")] None)
    (Some example_site) None = Ok false.
Proof.
  repeat split; try reflexivity;
    exists example_site, example_site; repeat split; reflexivity.
Qed.

(** C5, as the spec states it, fails: a [Referer] header that is present
    with an empty value is not a parseable URL, yet nothing is thrown; the
    request is treated as one without headers, refused in production and
    accepted in development. *)
Lemma validateOrigin_empty_referer_is_silent :
  headers (request_with [("referer", "")] None) !! "origin" = None ∧
  headers (request_with [("referer", "")] None) !! "referer" = Some "" ∧
  URL_new "" = None ∧
  validateOrigin URL_new "production" (request_with [("referer", "")] None)
    (Some example_site) None = Ok false ∧
  validateOrigin URL_new "development" (request_with [("referer", "")] None)
    (Some example_site) None = Ok true.
Proof. repeat split; reflexivity. Qed.

(** ** Claims about client identification *)

Lemma split_head v : head (split "," v) = Some (first_entry v).
Proof.
  unfold first_entry. induction v as [|c v IH]; simpl; [done|].
  destruct (Ascii.eqb c ","); simpl; [done|].
  destruct (split "," v) as [|x xs]; simpl in *; [done|].
  by injection IH as ->.
Qed.

(** The address test is membership in the two grammars. *)
Lemma isValidIpAddress_spec ip :
  isValidIpAddress ip = true ↔ matches ipv4Regex ip ∨ matches ipv6Regex ip.
Proof.
  unfold isValidIpAddress. rewrite orb_true_iff, !test_spec. done.
Qed.

Lemma test_Void s : test Void s = false.
Proof. induction s; simpl; auto. Qed.

(** No address literal starts with the letter of [unknown-...]. *)
Lemma isValidIpAddress_fallbackId w : isValidIpAddress (fallbackId w) = false.
Proof.
  unfold isValidIpAddress, fallbackId.
  change ("unknown-" +:+ ?s) with (String "u" ("nknown-" +:+ s)).
  change (test ?r (String ?c ?s)) with (test (deriv c r) s).
  assert (deriv "u" ipv4Regex = Void) as -> by (vm_compute; reflexivity).
  assert (deriv "u" ipv6Regex = Void) as -> by (vm_compute; reflexivity).
  by rewrite !test_Void.
Qed.

Lemma all_digits_app d c :
  all_digits d -> is_digit c = true -> all_digits (d +:+ String c "").
Proof.
  unfold all_digits. induction d as [|a d IH]; rewrite ?append_String, ?append_empty; simpl.
  - intros _ ->. done.
  - intros [-> Hd]%andb_prop Hc. simpl. by apply IH.
Qed.

Lemma is_digit_pretty_N_char x : is_digit (pretty_N_char x) = true.
Proof. unfold pretty_N_char. by repeat case_match. Qed.

Lemma app_String_assoc d c s : (d +:+ String c "") +:+ s = d +:+ String c s.
Proof.
  induction d as [|a d IH]; rewrite ?append_String, ?append_empty; [done|].
  by rewrite IH.
Qed.

Lemma pretty_N_go_digits x s :
  ∃ d, pretty_N_go x s = d +:+ s ∧ all_digits d ∧ ((0 < x)%N -> d ≠ "").
Proof.
  revert s. induction (N.lt_wf_0 x) as [x _ IH]; intros s.
  assert (x = 0 ∨ 0 < x)%N as [->|Hpos] by lia.
  - exists "". rewrite pretty_N_go_0. split; [done|split; [done|lia]].
  - rewrite pretty_N_go_step by done.
    destruct (IH (x `div` 10)%N ltac:(by apply N.div_lt)
                 (String (pretty_N_char (x `mod` 10)) s)) as (d & -> & Hd & _).
    exists (d +:+ String (pretty_N_char (x `mod` 10)) "").
    rewrite app_String_assoc. split; [done|split].
    + apply all_digits_app; [done|apply is_digit_pretty_N_char].
    + intros _. by destruct d.
Qed.

Lemma pretty_N_digits (x : N) : all_digits (pretty x) ∧ pretty x ≠ "".
Proof.
  unfold pretty, pretty_N. case_decide; [done|].
  destruct (pretty_N_go_digits x "") as (d & -> & Hd & Hne).
  rewrite append_empty_r.
  split; [done|apply Hne; lia].
Qed.

(** A run of digits followed by a dash is read back unambiguously. *)
Lemma digits_dash_inj d1 d2 r1 r2 :
  all_digits d1 -> all_digits d2 ->
  d1 +:+ String "-" r1 = d2 +:+ String "-" r2 -> d1 = d2 ∧ r1 = r2.
Proof.
  unfold all_digits. revert d2.
  induction d1 as [|a d1 IH]; intros [|b d2];
    rewrite ?append_String, ?append_empty; simpl.
  - intros _ _ [= ->]. done.
  - intros _ [Hb _]%andb_prop [= <- _]. done.
  - intros [Ha _]%andb_prop _ [= -> _]. done.
  - intros [_ H1]%andb_prop [_ H2]%andb_prop [= -> Heq].
    destruct (IH d2 H1 H2 Heq) as [-> ->]. done.
Qed.

(** The decimal form of a clock reading: digits, after a dash when negative. *)
Lemma pretty_Z_shape (z : Z) :
  ∃ d, all_digits d ∧ d ≠ "" ∧
       pretty z = if z <? 0 then String "-" d else d.
Proof.
  destruct z as [|p|p].
  - by exists "0".
  - exists (pretty (Npos p)). by destruct (pretty_N_digits (Npos p)).
  - exists (pretty (Npos p)). by destruct (pretty_N_digits (Npos p)).
Qed.

Lemma digit_not_dash d s : all_digits d -> d ≠ "" -> d ≠ String "-" s.
Proof.
  unfold all_digits. destruct d as [|c d]; [done|]. simpl.
  intros [Hc _]%andb_prop _ [= -> _]. done.
Qed.

Lemma fallbackId_inj w w' :
  fallbackId w = fallbackId w' ->
  idTime w = idTime w' ∧ random36 w = random36 w'.
Proof.
  unfold fallbackId. rewrite !append_String, !append_empty. intros [= Heq].
  cut (pretty (idTime w) = pretty (idTime w') ∧ random36 w = random36 w').
  { intros [Hp ->]. by apply (inj pretty) in Hp. }
  destruct (pretty_Z_shape (idTime w)) as (d & Hd & Hne & Hp).
  destruct (pretty_Z_shape (idTime w')) as (d' & Hd' & Hne' & Hp').
  rewrite Hp, Hp' in *. clear Hp Hp'.
  destruct (idTime w <? 0), (idTime w' <? 0);
    rewrite ?append_String in Heq.
  - injection Heq as Heq. by apply digits_dash_inj in Heq as [-> ->].
  - exfalso. destruct d' as [|c d']; [done|].
    rewrite append_String in Heq. injection Heq as <- _.
    by apply andb_prop in Hd' as [? _].
  - exfalso. destruct d as [|c d]; [done|].
    rewrite append_String in Heq. injection Heq as -> _.
    by apply andb_prop in Hd as [? _].
  - by apply digits_dash_inj in Heq as [-> ->].
Qed.

(** C4, as the code has it.  Under [x-forwarded-for] the client id is the
    first comma-separated entry of the header, trimmed, when that is an IPv4
    or IPv6 literal; when it is not, when the header is missing, or when no
    header is trusted, it is the fallback [unknown-<clock>-<random>].  A
    fallback id is never an address literal, and two fallback ids are equal
    exactly when both the clock reading and the random suffix are. *)
Theorem getClientId_forwarded_for (w : World) (request : Request) :
  (∀ v, headers request !! "x-forwarded-for" = Some v ->
        getClientId w request (Some x_forwarded_for) =
          if isValidIpAddress (trim (first_entry v)) then trim (first_entry v)
          else fallbackId w) ∧
  (headers request !! "x-forwarded-for" = None ->
   getClientId w request (Some x_forwarded_for) = fallbackId w) ∧
  getClientId w request None = fallbackId w ∧
  isValidIpAddress (fallbackId w) = false ∧
  (∀ w', fallbackId w = fallbackId w' ↔
         idTime w = idTime w' ∧ random36 w = random36 w').
Proof.
  split; [|split; [|split; [|split]]].
  - intros v Hv. unfold getClientId, proxyIp. rewrite Hv. simpl.
    rewrite split_head. simpl.
    destruct (trim (first_entry v)) as [|c ip]; [done|]. simpl.
    by destruct (isValidIpAddress (String c ip)).
  - intros Hv. unfold getClientId, proxyIp. by rewrite Hv.
  - done.
  - apply isValidIpAddress_fallbackId.
  - intros w'. split; [apply fallbackId_inj|].
    unfold fallbackId. by intros [-> ->].
Qed.

Lemma getClientId_forwarded_for_witness :
  getClientId (at_time 1000) example_request (Some x_forwarded_for) = "10.20.30.40".
Proof.
  destruct (getClientId_forwarded_for (at_time 1000) example_request) as [H _].
  exact (H "10.20.30.40, 172.16.0.1" eq_refl).
Defined.

(** C4, as the spec states it, fails: two different requests without a
    usable header, served on the same clock reading and the same random
    draw, get the same fallback id and are counted in one bucket. *)
Lemma unidentified_requests_can_share_bucket :
  request_with [] None
    ≠ request_with [("x-forwarded-for", "invalid-ip-address")] None ∧
  getClientId (at_time 1000) (request_with [] None) (Some x_forwarded_for)
    = "unknown-1000-k3x9" ∧
  getClientId (at_time 1000)
    (request_with [("x-forwarded-for", "invalid-ip-address")] None)
    (Some x_forwarded_for)
    = "unknown-1000-k3x9" ∧
  lookup_entry
    (snd (checkRateLimit (at_time 1000)
            (request_with [("x-forwarded-for", "invalid-ip-address")] None)
            example_config
            (snd (checkRateLimit (at_time 1000) (request_with [] None)
                    example_config empty_store))))
    "unknown-1000-k3x9"
  = Some {| count := 2; resetTime := 61000 |}.
Proof.
  split; [|by vm_compute].
  intros H. apply (f_equal (λ r, headers r !! "x-forwarded-for")) in H.
  vm_compute in H. discriminate.
Qed.

(** ** Claims about the endpoint *)

(** C9.  [GET] takes no argument, so every GET request gets the one
    response: status 405, a JSON body that holds the error message, and the
    header [Allow: POST] beside the JSON content type. *)
Theorem GET_method_not_allowed :
  status GET = 405 ∧
  response_headers GET !! "Content-Type" = Some "application/json" ∧
  response_headers GET !! "Allow" = Some "POST" ∧
  body GET = JObj [("error", JStr "Use POST method for search")].
Proof. by vm_compute. Qed.

(** The superseded copy of the handler differs from [GET] in its headers
    only: it answers the same status and body, with the content type as its
    single header. *)
Lemma GET_legacy_headers :
  status GET_legacy = status GET ∧
  body GET_legacy = body GET ∧
  response_headers GET_legacy = {[ "Content-Type" := "application/json" ]}.
Proof. by vm_compute. Qed.

Lemma member_without_ne key key' members :
  key ≠ key' -> member key (without key' members) = member key members.
Proof.
  intros Hne. induction members as [|[k v] members IH]; simpl; [done|].
  destruct (String.eqb k key') eqn:Hk; simpl; rewrite IH; [|done].
  apply String.eqb_eq in Hk as ->.
  destruct (member key members); [done|].
  by apply not_eq_sym, String.eqb_neq in Hne as ->.
Qed.

Lemma member_without_eq key members : member key (without key members) = None.
Proof.
  induction members as [|[k v] members IH]; simpl; [done|].
  destruct (String.eqb k key) eqn:Hk; simpl; [done|]. by rewrite IH, Hk.
Qed.

Lemma sanitizedLimit_unparseable limit :
  unparseable limit = true -> sanitizedLimit limit = 10.
Proof.
  unfold sanitizedLimit, numericLimit, unparseable.
  destruct limit as [| |[]|s| |]; try done.
  by destruct (parseInt s).
Qed.

Section Limit.

Context (parse_url : string -> option URL) (nodeEnv : string)
        (Client : Type) (getTursoClient : result Client)
        (search : Client -> string -> Z -> result (list JSON)).

Lemma run_search_unparseable_limit hs members limit :
  member "limit" members = Some limit ->
  unparseable limit = true ->
  run_search Client getTursoClient search hs (JObj members)
    = run_search Client getTursoClient search hs
        (JObj (without "limit" members)).
Proof.
  intros Hlimit Hbad. unfold run_search, destructure.
  rewrite member_without_ne by done.
  rewrite member_without_eq, Hlimit. simpl.
  by rewrite (sanitizedLimit_unparseable limit).
Qed.

(** C10.  A [limit] member that is a non-finite number, or a string that
    [parseInt] does not turn into a finite number, gives the default:
    [sanitizedLimit] is 10, the response is the one the same request gets
    with no [limit] member at all, and when the guards pass and the query
    is acceptable the search runs with limit 10 and the status is 200 or,
    if the search fails, 500. *)
Theorem unparseable_limit_is_default
    (w : World) (request : Request) (site : option URL) (σ : Store)
    (members : list (string * JSON)) (limit : JSON) :
  json request = Some (JObj members) ->
  member "limit" members = Some limit ->
  unparseable limit = true ->
  sanitizedLimit limit = 10 ∧
  POST parse_url nodeEnv Client getTursoClient search w request site σ
    = POST parse_url nodeEnv Client getTursoClient search w
        (with_json request (JObj (without "limit" members))) site σ ∧
  ∀ query,
    member "query" members = Some (JStr query) ->
    query ≠ "" ->
    (String.length query <= 500)%nat ->
    validateOrigin parse_url nodeEnv request site None = Ok true ->
    allowed (fst (checkRateLimit w request searchConfig σ)) = true ->
    ∃ response,
      POST parse_url nodeEnv Client getTursoClient search w request site σ
        = Ok (response, snd (checkRateLimit w request searchConfig σ)) ∧
      match getTursoClient with
      | Ok client =>
          match search client query 10 with
          | Ok results =>
              status response = 200 ∧
              body response =
                JObj [("results", JArr results);
                      ("count", JNum (Finite (inject_Z (Z.of_nat (length results)))));
                      ("query", JStr query)]
          | Throw _ => status response = 500
          end
      | Throw _ => status response = 500
      end.
Proof.
  intros Hjson Hlimit Hbad. split; [by apply sanitizedLimit_unparseable|]. split.
  - unfold POST.
    change (validateOrigin parse_url nodeEnv
              (with_json request (JObj (without "limit" members))) site None)
      with (validateOrigin parse_url nodeEnv request site None).
    change (checkRateLimit w (with_json request (JObj (without "limit" members)))
              searchConfig σ)
      with (checkRateLimit w request searchConfig σ).
    rewrite Hjson. simpl json.
    destruct (validateOrigin parse_url nodeEnv request site None) as [[]|]; simpl; [|done..].
    destruct (checkRateLimit w request searchConfig σ) as [rl σ'].
    destruct (allowed rl); simpl; [|done].
    by rewrite (run_search_unparseable_limit _ members limit).
  - intros query Hquery Hne Hlen Hvalid Hallowed.
    unfold POST. rewrite Hvalid. simpl.
    destruct (checkRateLimit w request searchConfig σ) as [rl σ'].
    simpl in Hallowed. rewrite Hallowed, Hjson. simpl.
    eexists. split; [reflexivity|].
    unfold run_search, destructure. rewrite Hquery, Hlimit. simpl.
    destruct (is_empty query) eqn:Hemp; [by apply is_empty_spec in Hemp|].
    assert ((500 <? Z.of_nat (String.length query)) = false) as -> by lia.
    rewrite (sanitizedLimit_unparseable limit) by done.
    destruct getTursoClient as [client|]; simpl; [|done].
    by destruct (search client query 10).
Qed.

End Limit.

Lemma unparseable_limit_is_default_witness :
  ∃ response,
    POST URL_new "production" unit (Ok ()) echo_search (at_time 1000)
      (with_json example_request
         (JObj [("query", JStr "hello"); ("limit", JStr "abc")]))
      (Some example_site) empty_store
    = Ok (response,
          snd (checkRateLimit (at_time 1000) example_request searchConfig empty_store)) ∧
    status response = 200 ∧
    body response = JObj [("results", JArr [JNum (Finite 10)]);
                          ("count", JNum (Finite 1));
                          ("query", JStr "hello")].
Proof.
  destruct (unparseable_limit_is_default URL_new "production" unit (Ok ())
              echo_search (at_time 1000)
              (with_json example_request
                 (JObj [("query", JStr "hello"); ("limit", JStr "abc")]))
              (Some example_site) empty_store
              [("query", JStr "hello"); ("limit", JStr "abc")] (JStr "abc"))
    as (_ & _ & H).
  - reflexivity.
  - reflexivity.
  - reflexivity.
  - destruct (H "hello") as (response & HPOST & Hstatus & Hbody).
    + reflexivity.
    + discriminate.
    + vm_compute. lia.
    + reflexivity.
    + reflexivity.
    + exists response. split; [exact HPOST|]. split; [exact Hstatus|exact Hbody].
Defined.

(** ** The repository's tests, replayed on the model *)

(** [validateOrigin]: accepted origins and referers, in production. *)
Example validateOrigin_accepts :
  map (λ '(hs, site),
         validateOrigin URL_new "test" (request_with hs None) (URL_new site)
           (Some production))
      [ ([("origin", "https://example.com")], "https://example.com/some/path");
        ([("origin", "https://example.com:8080")], "https://example.com:8080/path");
        ([("origin", "https://docs.example.com")], "https://docs.example.com/api/search");
        ([("referer", "https://example.com/some/page")], "https://example.com");
        ([("referer", "https://example.com/deep/nested/page?query=test")], "https://example.com");
        ([("origin", "https://example.com")], "https://EXAMPLE.COM");
        ([("referer", "https://example.com/docs#section-1")], "https://example.com") ]
  = [Ok true; Ok true; Ok true; Ok true; Ok true; Ok true; Ok true].
Proof. reflexivity. Qed.

(** [validateOrigin]: rejected origins and referers, in production. *)
Example validateOrigin_rejects :
  map (λ '(hs, site),
         validateOrigin URL_new "test" (request_with hs None) (URL_new site)
           (Some production))
      [ ([("origin", "https://evil.com"); ("referer", "https://example.com/page")],
         "https://example.com");
        ([("origin", "http://example.com")], "https://example.com");
        ([("origin", "https://example.com:3000")], "https://example.com:8080");
        ([("referer", "https://api.example.com/page")], "https://www.example.com");
        ([], "https://example.com");
        ([("origin", "")], "https://example.com");
        ([("origin", "https://evil-example.com")], "https://example.com");
        ([("origin", "https://example.com.evil.com")], "https://example.com");
        ([("origin", "https://evil.example.com")], "https://example.com");
        ([("origin", "https://example.com.attacker.com")], "https://example.com");
        ([("origin", "https://examplecom.com")], "https://example.com");
        ([("origin", "https://examp1e.com")], "https://example.com") ]
  = [Ok false; Ok false; Ok false; Ok false; Ok false; Ok false;
     Ok false; Ok false; Ok false; Ok false; Ok false; Ok false].
Proof. reflexivity. Qed.

(** [validateOrigin]: development and test modes, and an absent site. *)
Example validateOrigin_development :
  map (λ '(hs, mode),
         validateOrigin URL_new "production" (request_with hs None)
           (Some example_site)
           (Some {| isDevelopment := mode; isTest := negb mode |}))
      [ ([("origin", "http://localhost")], true);
        ([("origin", "http://localhost:4321")], true);
        ([("origin", "https://localhost:3000")], true);
        ([("origin", "http://127.0.0.1")], true);
        ([("origin", "http://127.0.0.1:8080")], true);
        ([("origin", "http://[::1]")], true);
        ([("origin", "http://[::1]:5173")], true);
        ([], true);
        ([("origin", "https://evil.com")], true);
        ([], false);
        ([("origin", "http://localhost:4321")], false);
        ([("origin", "https://malicious.com")], false) ]
  = [Ok true; Ok true; Ok true; Ok true; Ok true; Ok true; Ok true; Ok true;
     Ok false; Ok true; Ok true; Ok false] ∧
  validateOrigin URL_new "production"
    (request_with [("origin", "https://example.com")] None) None (Some production)
  = Ok false ∧
  validateOrigin URL_new "development"
    (request_with [("origin", "http://localhost:3000")] None) None None
  = Ok true.
Proof. repeat split; reflexivity. Qed.

(** [checkRateLimit]: the window expires, and clients are counted apart. *)
Example checkRateLimit_resets_after_window :
  let request := request_with [("x-forwarded-for", "192.168.1.1")] None in
  let config := {| maxRequests := 2; windowSeconds := 60;
                   trustedProxyHeader := Some x_forwarded_for |} in
  map (λ r, (allowed r, remaining r))
      (fst (run_checks [ (at_time 0, request, config);
                         (at_time 0, request, config);
                         (at_time 0, request, config);
                         (at_time 61000, request, config) ] empty_store))
  = [(true, 1); (true, 0); (false, 0); (true, 1)].
Proof. reflexivity. Qed.

Example checkRateLimit_tracks_clients_apart :
  let request1 := request_with [("x-forwarded-for", "172.16.0.1")] None in
  let request2 := request_with [("x-forwarded-for", "172.16.0.2")] None in
  let config := {| maxRequests := 2; windowSeconds := 60;
                   trustedProxyHeader := Some x_forwarded_for |} in
  map allowed
      (fst (run_checks [ (at_time 0, request1, config);
                         (at_time 0, request1, config);
                         (at_time 0, request1, config);
                         (at_time 0, request2, config) ] empty_store))
  = [true; true; false; true].
Proof. reflexivity. Qed.

Example isValidIpAddress_literals :
  map isValidIpAddress
      [ "1.2.3.4"; "203.0.113.1"; "2001:0db8:85a3:0000:0000:8a2e:0370:7334";
        "::1"; "invalid-ip-address"; "256.1.1.1"; "1.2.3"; "" ]
  = [true; true; true; true; false; false; false; false].
Proof. reflexivity. Qed.

Example createRateLimitHeaders_example :
  let hs := createRateLimitHeaders
              {| allowed := true; limit := 10; remaining := 7;
                 result_resetTime := 1700000000000 |} in
  (hs !! "X-RateLimit-Limit", hs !! "X-RateLimit-Remaining", hs !! "X-RateLimit-Reset")
  = (Some "10", Some "7", Some "1700000000").
Proof. reflexivity. Qed.

(** [POST], end to end: a query is answered and echoed, a body without a
    query is refused, and the limit is floored and clamped. *)
Example POST_end_to_end :
  map (λ j,
         match POST URL_new "production" unit (Ok ()) echo_search (at_time 1000)
                 (with_json example_request j) (Some example_site) empty_store with
         | Ok (response, _) => Some (status response, body response)
         | Throw _ => None
         end)
      [ JObj [("query", JStr "hello")];
        JObj [("limit", JNum (Finite 5))];
        JObj [("query", JNum (Finite 123)); ("limit", JNum (Finite 5))];
        JObj [("query", JStr "hello"); ("limit", JNum (Finite (57 # 10)))];
        JObj [("query", JStr "hello"); ("limit", JStr "99")];
        JObj [("query", JStr "hello"); ("limit", JNum (Finite (-3)))];
        JObj [("query", JStr "hello"); ("limit", JNum PosInfinity)] ]
  = [ Some (200, JObj [("results", JArr [JNum (Finite 10)]);
                       ("count", JNum (Finite 1)); ("query", JStr "hello")]);
      Some (400, JObj [("error", JStr "Query parameter is required")]);
      Some (400, JObj [("error", JStr "Query parameter is required")]);
      Some (200, JObj [("results", JArr [JNum (Finite 5)]);
                       ("count", JNum (Finite 1)); ("query", JStr "hello")]);
      Some (200, JObj [("results", JArr [JNum (Finite 20)]);
                       ("count", JNum (Finite 1)); ("query", JStr "hello")]);
      Some (200, JObj [("results", JArr [JNum (Finite 1)]);
                       ("count", JNum (Finite 1)); ("query", JStr "hello")]);
      Some (200, JObj [("results", JArr [JNum (Finite 10)]);
                       ("count", JNum (Finite 1)); ("query", JStr "hello")]) ].
Proof. reflexivity. Qed.

(** * Further properties *)

(** ** More on client identification *)

Lemma proxyIp_header request h :
  proxyIp request h =
    match h with
    | x_forwarded_for =>
        (λ v, trim (first_entry v)) <$> headers request !! header_name h
    | _ => headers request !! header_name h
    end.
Proof.
  destruct h; simpl; try done.
  destruct (headers request !! "x-forwarded-for") as [v|]; simpl; [|done].
  by rewrite split_head.
Qed.

(** X1.  The client id is read from the configured header and from nothing
    else in the request: two requests that agree on that header get the same
    id on the same clock reading and random draw, and with no trusted header
    the request does not matter at all. *)
Theorem getClientId_reads_only_trusted_header
    (w w' : World) (request request' : Request)
    (trusted : option TrustedProxyHeader) :
  (∀ h, trusted = Some h ->
        headers request !! header_name h = headers request' !! header_name h) ->
  idTime w = idTime w' ->
  random36 w = random36 w' ->
  getClientId w request trusted = getClientId w' request' trusted.
Proof.
  intros Hh Ht Hr.
  assert (fallbackId w = fallbackId w') as Hf by (unfold fallbackId; congruence).
  destruct trusted as [h|]; simpl; [|done].
  rewrite !proxyIp_header, (Hh h eq_refl), Hf. done.
Qed.

(** X2.  The client id is never an unvalidated header value: it is either
    the fallback id, or an address literal that the trusted header carried
    (its first comma-separated entry, trimmed, for [x-forwarded-for]; the
    whole value for the other two). *)
Theorem getClientId_validated
    (w : World) (request : Request) (trusted : option TrustedProxyHeader) :
  getClientId w request trusted = fallbackId w ∨
  (isValidIpAddress (getClientId w request trusted) = true ∧
   ∃ h v, trusted = Some h ∧ headers request !! header_name h = Some v ∧
          getClientId w request trusted =
            match h with
            | x_forwarded_for => trim (first_entry v)
            | _ => v
            end).
Proof.
  destruct trusted as [h|]; simpl; [|by left].
  rewrite proxyIp_header.
  destruct h; simpl;
    match goal with
    | |- context [headers request !! ?k] =>
        destruct (headers request !! k) as [v|] eqn:Hv; simpl; [|by left]
    end;
    match goal with
    | |- context [isValidIpAddress ?ip] =>
        destruct (negb (is_empty ip)) eqn:Hne; simpl; [|by left];
        destruct (isValidIpAddress ip) eqn:Hip; [right|by left]
    end;
    (split; [done|]); eauto.
Qed.

(** ** More on the rate limiter *)

(** The answer depends on the store through the client's entry only. *)
Lemma checkRateLimit_answer w request config σ :
  let id := getClientId w request (trustedProxyHeader config) in
  fst (checkRateLimit w request config σ) =
    answer config (resetTime (next_entry w config (lookup_entry σ id)))
                  (count (next_entry w config (lookup_entry σ id))) ∧
  lookup_entry (snd (checkRateLimit w request config σ)) id =
    Some (next_entry w config (lookup_entry σ id)).
Proof.
  intros id.
  destruct (checkRateLimit_result w request config σ) as (e' & He' & ->).
  rewrite checkRateLimit_own_entry in He' |- *. fold id in He' |- *.
  injection He' as <-. done.
Qed.

(** X3.  Clients are counted apart: a call leaves the entry of every other
    client as it was, so the answer another client gets next is the one it
    would have got without that call. *)
Theorem checkRateLimit_isolation
    (w w' : World) (request request' : Request)
    (config config' : RateLimitConfig) (σ : Store) :
  reachable σ ->
  getClientId w request (trustedProxyHeader config)
    ≠ getClientId w' request' (trustedProxyHeader config') ->
  lookup_entry (snd (checkRateLimit w request config σ))
    (getClientId w' request' (trustedProxyHeader config'))
  = lookup_entry σ (getClientId w' request' (trustedProxyHeader config')) ∧
  fst (checkRateLimit w' request' config'
         (snd (checkRateLimit w request config σ)))
  = fst (checkRateLimit w' request' config' σ).
Proof.
  intros [Hwf _]%reachable_inv Hne.
  assert (lookup_entry (snd (checkRateLimit w request config σ))
            (getClientId w' request' (trustedProxyHeader config'))
          = lookup_entry σ (getClientId w' request' (trustedProxyHeader config')))
    as Hframe by (apply checkRateLimit_frame; [done|congruence]).
  split; [done|].
  destruct (checkRateLimit_answer w' request' config'
              (snd (checkRateLimit w request config σ))) as [-> _].
  destruct (checkRateLimit_answer w' request' config' σ) as [-> _].
  by rewrite Hframe.
Qed.

(** X4.  What an answer says is coherent: [limit] is the configured
    maximum, [remaining] is never negative, a refusal leaves nothing
    remaining, and an allowed request leaves less than the maximum. *)
Theorem checkRateLimit_answer_coherent
    (w : World) (request : Request) (config : RateLimitConfig) (σ : Store) :
  reachable σ ->
  let r := fst (checkRateLimit w request config σ) in
  limit r = maxRequests config ∧
  0 <= remaining r ∧
  (allowed r = false -> remaining r = 0) ∧
  (allowed r = true -> remaining r < limit r).
Proof.
  intros Hreach r.
  destruct (checkRateLimit_result w request config σ) as (e' & He' & Hr).
  apply lookup_entry_Some in He' as (ref & _ & He').
  destruct (reachable_inv _ (reachable_check w request config σ Hreach)) as [_ Hpos].
  specialize (Hpos _ _ He').
  subst r. rewrite Hr. simpl. repeat split; lia.
Qed.

(** X5.  The reported reset time is never in the past of the call, for any
    window that is not negative. *)
Theorem checkRateLimit_reset_not_past
    (w : World) (request : Request) (config : RateLimitConfig) (σ : Store) :
  0 <= windowSeconds config ->
  now w <= result_resetTime (fst (checkRateLimit w request config σ)).
Proof.
  intros Hwin.
  destruct (checkRateLimit_answer w request config σ) as [-> _]. simpl.
  unfold next_entry.
  destruct (lookup_entry σ _) as [e|]; simpl; [|lia].
  destruct (now w >? resetTime e) eqn:Hexp; simpl; lia.
Qed.

(** Inside an open window the calls of its client are answered by rank,
    whatever other clients do in between. *)
Lemma run_checks_in_window id config R calls :
  ∀ σ k,
    store_wf σ ->
    lookup_entry σ id = Some {| count := k; resetTime := R |} ->
    (∀ w request config',
       (w, request, config') ∈ calls ->
       getClientId w request (trustedProxyHeader config') = id ->
       config' = config ∧ now w <= R) ->
    store_wf (snd (run_checks calls σ)) ∧
    ∀ i r, answers_of id calls (fst (run_checks calls σ)) !! i = Some r ->
           r = answer config R (k + 1 + Z.of_nat i).
Proof.
  induction calls as [|[[w request] config'] calls IH]; intros σ k Hwf He Hcalls.
  - simpl. split; [done|]. intros i r. by rewrite lookup_nil.
  - simpl.
    destruct (checkRateLimit w request config' σ) as [a σ1] eqn:Hcall.
    assert (store_wf σ1) as Hwf1.
    { replace σ1 with (snd (checkRateLimit w request config' σ))
        by (by rewrite Hcall). by apply checkRateLimit_wf. }
    assert (∀ w0 request0 config0,
              (w0, request0, config0) ∈ calls ->
              getClientId w0 request0 (trustedProxyHeader config0) = id ->
              config0 = config ∧ now w0 <= R) as Hrest.
    { intros w0 request0 config0 Hin. apply Hcalls. by right. }
    destruct (run_checks calls σ1) as [answers σ2] eqn:Hrun. simpl.
    destruct (decide (getClientId w request (trustedProxyHeader config') = id))
      as [Hid|Hid].
    + destruct (Hcalls w request config' ltac:(by left) Hid) as [-> Hnow].
      destruct (checkRateLimit_in_window w request config σ
                  {| count := k; resetTime := R |}
                  ltac:(by rewrite Hid) Hnow) as [He1 Ha].
      rewrite Hcall in He1, Ha. simpl in He1, Ha. rewrite Hid in He1.
      destruct (IH σ1 (k + 1) Hwf1 He1 Hrest) as [Hwf2 Hans].
      rewrite Hrun in Hwf2, Hans. simpl in Hwf2, Hans.
      split; [done|]. intros [|i] r; simpl.
      * intros [= <-]. rewrite Ha.
        by replace (k + 1 + Z.of_nat 0) with (k + 1) by lia.
      * intros Hr. rewrite (Hans i r Hr).
        by replace (k + 1 + 1 + Z.of_nat i) with (k + 1 + Z.of_nat (S i)) by lia.
    + assert (lookup_entry σ1 id = Some {| count := k; resetTime := R |}) as He1.
      { replace σ1 with (snd (checkRateLimit w request config' σ))
          by (by rewrite Hcall).
        rewrite checkRateLimit_frame by (try done; congruence). done. }
      destruct (IH σ1 k Hwf1 He1 Hrest) as [Hwf2 Hans].
      rewrite Hrun in Hwf2, Hans. simpl in Hwf2, Hans. done.
Qed.

Lemma allowed_by_rank config R (answers : list RateLimitResult) k :
  (∀ i r, answers !! i = Some r -> r = answer config R (k + Z.of_nat i)) ->
  Z.of_nat (length (List.filter allowed answers)) <= Z.max 0 (maxRequests config + 1 - k).
Proof.
  revert k. induction answers as [|a answers IH]; intros k Hans; simpl; [lia|].
  assert (a = answer config R k) as ->.
  { rewrite (Hans 0%nat a eq_refl). f_equal. lia. }
  assert (Z.of_nat (length (List.filter allowed answers))
          <= Z.max 0 (maxRequests config + 1 - (k + 1))) as Hrest.
  { apply IH. intros i r Hr. rewrite (Hans (S i) r Hr). f_equal. lia. }
  simpl. destruct (k <=? maxRequests config) eqn:Hk; simpl; lia.
Qed.

(** X6.  The limiter limits.  Take any run of calls, of any clients, that
    starts with a call of client [id] opening a window, in which the later
    calls of [id] come under the same configuration before the window ends.
    Then the [n]-th call of [id] is answered as number [n] of the window:
    allowed iff [n <= maxRequests], with [max(0, maxRequests - n)] remaining;
    so at most [maxRequests] of them are allowed, however many are made. *)
Theorem checkRateLimit_quota
    (w : World) (request : Request) (config : RateLimitConfig)
    (calls : list (World * Request * RateLimitConfig)) (σ : Store) :
  let id := getClientId w request (trustedProxyHeader config) in
  let R := now w + windowSeconds config * 1000 in
  let mine := answers_of id ((w, request, config) :: calls)
                (fst (run_checks ((w, request, config) :: calls) σ)) in
  reachable σ ->
  opens_window w σ id ->
  (∀ w' request' config',
     (w', request', config') ∈ calls ->
     getClientId w' request' (trustedProxyHeader config') = id ->
     config' = config ∧ now w' <= R) ->
  (∀ i r, mine !! i = Some r -> r = answer config R (1 + Z.of_nat i)) ∧
  Z.of_nat (length (List.filter allowed mine)) <= Z.max 0 (maxRequests config).
Proof.
  intros id R mine [Hwf _]%reachable_inv Hopen Hcalls.
  assert (∀ i r, mine !! i = Some r -> r = answer config R (1 + Z.of_nat i)) as Hans.
  { subst mine. simpl.
    destruct (checkRateLimit_new_window w request config σ Hopen) as [He1 Ha].
    fold id R in He1, Ha.
    destruct (checkRateLimit w request config σ) as [a σ1] eqn:Hcall.
    simpl in He1, Ha.
    assert (store_wf σ1) as Hwf1.
    { replace σ1 with (snd (checkRateLimit w request config σ))
        by (by rewrite Hcall). by apply checkRateLimit_wf. }
    destruct (run_checks_in_window id config R calls σ1 (0 + 1) Hwf1 He1 Hcalls)
      as [_ Hrest].
    destruct (run_checks calls σ1) as [answers σ2]. simpl in *.
    fold id. destruct (decide (id = id)) as [_|]; [|done].
    intros [|i] r; simpl.
    - intros [= <-]. by rewrite Ha.
    - intros Hr. rewrite (Hrest i r Hr).
      by replace (0 + 1 + 1 + Z.of_nat i) with (1 + Z.of_nat (S i)) by lia. }
  split; [done|].
  pose proof (allowed_by_rank config R mine 1 Hans). lia.
Qed.

(** X7.  The sweep deletes exactly the entries whose window has passed: an
    entry is there afterwards iff it was there before and its [resetTime] is
    not behind the sweep's clock.  Sweeping twice changes nothing more. *)
Theorem sweep_exact (t : Z) (σ : Store) (id : string) (e : RateLimitEntry) :
  (lookup_entry (sweep t σ) id = Some e ↔
   lookup_entry σ id = Some e ∧ t <= resetTime e) ∧
  lookup_entry (sweep t (sweep t σ)) id = lookup_entry (sweep t σ) id.
Proof.
  split.
  - rewrite sweep_lookup.
    destruct (lookup_entry σ id) as [e0|]; [|naive_solver].
    destruct (t >? resetTime e0) eqn:Hexp; split.
    + done.
    + intros [[= ->] ?]. lia.
    + intros [= ->]. split; [done|lia].
    + by intros [? _].
  - rewrite !sweep_lookup.
    destruct (lookup_entry σ id) as [e0|]; [|done].
    destruct (t >? resetTime e0) eqn:Hexp; [done|]. by rewrite Hexp.
Qed.

(** X8.  The sweep is housekeeping only: when it ran no later than a call,
    the call is answered as if the sweep had not run, and leaves the same
    entry for its client. *)
Theorem sweep_transparent
    (t : Z) (w : World) (request : Request) (config : RateLimitConfig)
    (σ : Store) :
  t <= now w ->
  fst (checkRateLimit w request config (sweep t σ))
    = fst (checkRateLimit w request config σ) ∧
  lookup_entry (snd (checkRateLimit w request config (sweep t σ)))
    (getClientId w request (trustedProxyHeader config))
  = lookup_entry (snd (checkRateLimit w request config σ))
      (getClientId w request (trustedProxyHeader config)).
Proof.
  intros Ht.
  destruct (checkRateLimit_answer w request config (sweep t σ)) as [-> ->].
  destruct (checkRateLimit_answer w request config σ) as [-> ->].
  rewrite sweep_lookup.
  assert (next_entry w config
            match lookup_entry σ (getClientId w request (trustedProxyHeader config)) with
            | Some e => if t >? resetTime e then None else Some e
            | None => None
            end
          = next_entry w config
              (lookup_entry σ (getClientId w request (trustedProxyHeader config))))
    as ->; [|done].
  destruct (lookup_entry σ _) as [e|]; [|done].
  destruct (t >? resetTime e) eqn:Hexp; [|done].
  simpl. by assert ((now w >? resetTime e) = true) as -> by lia.
Qed.

(** ** More on origin validation *)

Section MoreOrigin.

Context (parse_url : string -> option URL) (nodeEnv : string).

(** X10.  A non-empty [Origin] header decides alone: the [Referer] is not
    parsed, so nothing is thrown whatever it holds, and any two requests
    with that [Origin] header get the same verdict. *)
Theorem validateOrigin_origin_takes_precedence
    (request request' : Request) (siteUrl : option URL)
    (envOverride : option ValidateOriginEnv) (o : string) :
  headers request !! "origin" = Some o ->
  headers request' !! "origin" = Some o ->
  o ≠ "" ->
  (∃ verdict,
     validateOrigin parse_url nodeEnv request siteUrl envOverride = Ok verdict) ∧
  validateOrigin parse_url nodeEnv request siteUrl envOverride
    = validateOrigin parse_url nodeEnv request' siteUrl envOverride.
Proof.
  intros Ho Ho' Hne.
  rewrite !(validateOrigin_decision parse_url nodeEnv _ siteUrl envOverride o)
    by (try done; by apply requestOrigin_origin_header).
  split; [eauto|done].
Qed.

(** X11.  [validateOrigin] throws in one situation only: no usable [Origin]
    header, and a non-empty [Referer] that the URL parser refuses. *)
Theorem validateOrigin_throws_iff
    (request : Request) (siteUrl : option URL)
    (envOverride : option ValidateOriginEnv) :
  (∃ e, validateOrigin parse_url nodeEnv request siteUrl envOverride = Throw e) ↔
  truthy (headers request !! "origin") = false ∧
  ∃ r, headers request !! "referer" = Some r ∧ r ≠ "" ∧ parse_url r = None.
Proof.
  unfold validateOrigin, requestOrigin.
  destruct (truthy (headers request !! "origin")) eqn:Ho.
  { simpl. split; [|by intros [? _]].
    intros [e He]. destruct (headers request !! "origin") as [o|]; [|done].
    simpl in *. destruct (is_empty o); [done|].
    destruct siteUrl as [u|]; [destruct (String.eqb o (origin u))|];
      by repeat case_match. }
  destruct (headers request !! "referer") as [r|] eqn:Hr; simpl;
    [|split; [by intros [? ?]|by intros [_ (? & ? & _)]]].
  destruct (is_empty r) eqn:Hemp; simpl.
  { apply is_empty_spec in Hemp as ->.
    split; [by intros [? ?]|by intros [_ (? & [= <-] & ? & _)]]. }
  destruct (parse_url r) as [u|] eqn:Hp; simpl.
  - split; [|by intros [_ (? & [= <-] & _ & ?)]; congruence].
    intros [e He]. by repeat case_match.
  - split; [|eauto]. intros _. split; [done|]. exists r.
    split; [done|]. split; [|done]. intros ->. done.
Qed.

(** X12.  With no site configured, nothing is accepted in production. *)
Theorem validateOrigin_without_site
    (request : Request) (envOverride : option ValidateOriginEnv) :
  isDevelopment (default (env nodeEnv) envOverride) = false ->
  isTest (default (env nodeEnv) envOverride) = false ->
  validateOrigin parse_url nodeEnv request None envOverride ≠ Ok true.
Proof.
  intros Hdev Htest. unfold validateOrigin.
  destruct (requestOrigin parse_url request) as [[o|]|]; simpl;
    rewrite ?Hdev, ?Htest; [|done..].
  by destruct (is_empty o).
Qed.

(** X13.  Development and test mode only add to what production accepts:
    a request accepted under production settings is accepted under any
    settings. *)
Theorem validateOrigin_relaxation_only_adds
    (request : Request) (siteUrl : option URL)
    (strict relaxed : ValidateOriginEnv) :
  isDevelopment strict = false ->
  isTest strict = false ->
  validateOrigin parse_url nodeEnv request siteUrl (Some strict) = Ok true ->
  validateOrigin parse_url nodeEnv request siteUrl (Some relaxed) = Ok true.
Proof.
  intros Hdev Htest. unfold validateOrigin. simpl.
  destruct (requestOrigin parse_url request) as [[o|]|]; simpl;
    rewrite ?Hdev, ?Htest; simpl; [|done..].
  destruct (is_empty o); [done|].
  destruct siteUrl as [u|]; [destruct (String.eqb o (origin u))|]; done.
Qed.

End MoreOrigin.

(** The languages of the pattern constructors. *)
Lemma matches_Cat_iff a b u :
  matches (Cat a b) u ↔ ∃ s t, u = s +:+ t ∧ matches a s ∧ matches b t.
Proof.
  split; [apply matches_Cat_inv|].
  intros (s & t & -> & Ha & Hb). by constructor.
Qed.

Lemma matches_chr_iff c u : matches (chr c) u ↔ u = String c "".
Proof.
  unfold chr. split.
  - inversion 1 as [|cls c' Hc| | | | |]; subst. f_equal.
    simpl in Hc. rewrite orb_false_r in Hc. unfold in_range in Hc. simpl in Hc.
    apply andb_prop in Hc as [H1%N.leb_le H2%N.leb_le].
    rewrite <-(ascii_N_embedding c), <-(ascii_N_embedding c'). f_equal. lia.
  - intros ->. constructor. simpl. unfold in_range. simpl.
    by rewrite N.leb_refl.
Qed.

Lemma matches_lit_iff s u : matches (lit s) u ↔ u = s.
Proof.
  revert u. induction s as [|c s IH]; intros u; simpl.
  - split; [apply matches_Eps|intros ->; constructor].
  - rewrite matches_Cat_iff. split.
    + intros (s1 & s2 & -> & ->%matches_chr_iff & ->%IH). done.
    + intros ->. exists (String c ""), s. split; [done|].
      split; [by apply matches_chr_iff|by apply IH].
Qed.

Lemma matches_opt_iff r u : matches (opt r) u ↔ matches r u ∨ u = "".
Proof.
  unfold opt. split.
  - intros [H| ->%matches_Eps]%matches_Alt_inv; auto.
  - intros [H| ->]; [by apply matches_alt_l|apply matches_alt_r; constructor].
Qed.

Lemma matches_digit_iff u : matches digit u ↔ ∃ c, u = String c "" ∧ is_digit c = true.
Proof.
  unfold digit, rng. split.
  - inversion 1 as [|cls c Hc| | | | |]; subst. exists c. split; [done|].
    simpl in Hc. by rewrite orb_false_r in Hc.
  - intros (c & -> & Hc). constructor. simpl. by rewrite orb_false_r.
Qed.

Lemma matches_star_digit u : matches (Star digit) u ↔ all_digits u.
Proof.
  unfold all_digits. split.
  - remember (Star digit) as r eqn:Hr. induction 1; try done.
    injection Hr as ->.
    apply matches_digit_iff in H as (c' & [= -> ->] & Hc).
    rewrite append_String, append_empty. simpl. rewrite Hc. by apply IHmatches2.
  - induction u as [|c u IH]; simpl; [constructor|].
    intros [Hc Hu]%andb_prop.
    change (String c u) with (String c "" +:+ u).
    constructor; [apply matches_digit_iff; eauto|by apply IH].
Qed.

Lemma matches_plus_digit u : matches (plus digit) u ↔ u ≠ "" ∧ all_digits u.
Proof.
  unfold plus. rewrite matches_Cat_iff. split.
  - intros (s & t & -> & (c & -> & Hc)%matches_digit_iff & Ht%matches_star_digit).
    rewrite append_String, append_empty. split; [done|].
    unfold all_digits in *. simpl. by rewrite Hc.
  - intros [Hne Hu]. destruct u as [|c u]; [done|].
    unfold all_digits in Hu. simpl in Hu. apply andb_prop in Hu as [Hc Hu].
    exists (String c ""), u. split; [done|].
    split; [apply matches_digit_iff; eauto|by apply matches_star_digit].
Qed.

(** One loopback pattern, for the host [h]. *)
Lemma matches_loopback_pattern h u :
  matches (loopback_pattern h) u ↔
  ∃ scheme port,
    u = scheme +:+ "://" +:+ h +:+ port ∧
    (scheme = "http" ∨ scheme = "https") ∧
    (port = "" ∨ ∃ d, port = ":" +:+ d ∧ d ≠ "" ∧ all_digits d).
Proof.
  unfold loopback_pattern. cbn [cats]. rewrite matches_Cat_iff. split.
  - intros (s1 & r1 & -> & ->%matches_lit_iff & H).
    apply matches_Cat_iff in H as (s2 & r2 & -> & Hs & H).
    apply matches_Cat_iff in H as (s3 & s4 & -> & ->%matches_lit_iff & Hp).
    apply matches_opt_iff in Hs. apply matches_opt_iff in Hp.
    exists ("http" +:+ s2), s4. split; [|split].
    + destruct Hs as [->%matches_chr_iff| ->]; reflexivity.
    + destruct Hs as [->%matches_chr_iff| ->]; [by right|by left].
    + destruct Hp as [Hp| ->]; [right|by left].
      apply matches_Cat_iff in Hp
        as (c & d & -> & ->%matches_chr_iff & Hd%matches_plus_digit).
      exists d. by destruct Hd.
  - intros (scheme & port & -> & Hscheme & Hport).
    exists "http", (match scheme with
                    | "http" => ""
                    | _ => "s"
                    end +:+ ("://" +:+ h) +:+ port).
    split; [by destruct Hscheme as [-> | ->]|].
    split; [by apply matches_lit_iff|].
    apply matches_Cat_iff. eexists _, _. split; [reflexivity|]. split.
    + apply matches_opt_iff.
      destruct Hscheme as [-> | ->]; [by right|left; by apply matches_chr_iff].
    + apply matches_Cat_iff. eexists _, _. split; [reflexivity|].
      split; [by apply matches_lit_iff|].
      apply matches_opt_iff. destruct Hport as [->|(d & -> & Hne & Hd)]; [by right|left].
      apply matches_Cat_iff. exists ":", d. split; [done|].
      split; [by apply matches_chr_iff|by apply matches_plus_digit].
Qed.

(** The three patterns together accept the loopback origins and no other. *)
Lemma localhostPatterns_spec o :
  existsb (λ pattern, test pattern o) localhostPatterns = true ↔
  is_loopback_origin o.
Proof.
  change localhostPatterns
    with [loopback_pattern "localhost"; loopback_pattern "127.0.0.1";
          loopback_pattern "[::1]"].
  unfold is_loopback_origin. cbn [existsb].
  rewrite !orb_true_iff, !test_spec, !matches_loopback_pattern. split.
  - intros [H|[H|[H|H]]]; [..|done];
      destruct H as (s & p & -> & Hs & Hp); exists s; eexists; exists p;
      (split; [reflexivity|]); (split; [done|]); (split; [|done]); auto.
  - intros (s & h & p & ? & ? & [-> |[-> | ->]] & ?);
      [left|right; left|right; right; left]; exists s, p; eauto.
Qed.

(** X14.  In development or test mode a request origin that is not the
    site's is accepted exactly when it is a loopback origin in full:
    [http] or [https], then [localhost], [127.0.0.1] or [[::1]], then
    nothing or a colon and decimal digits.  A longer or shorter string is
    refused. *)
Theorem validateOrigin_loopback_only
    (parse_url : string -> option URL) (nodeEnv : string)
    (request : Request) (siteUrl : option URL)
    (envOverride : option ValidateOriginEnv) (o : string) :
  let currentEnv := default (env nodeEnv) envOverride in
  isDevelopment currentEnv || isTest currentEnv = true ->
  requestOrigin parse_url request = Ok (Some o) ->
  o ≠ "" ->
  (∀ u, siteUrl = Some u -> o ≠ origin u) ->
  validateOrigin parse_url nodeEnv request siteUrl envOverride = Ok true ↔
  is_loopback_origin o.
Proof.
  intros currentEnv Hmode Hro Hne Hsite.
  rewrite (validateOrigin_decision parse_url nodeEnv request siteUrl envOverride o)
    by done.
  fold currentEnv. rewrite Hmode, andb_true_l.
  assert (match siteUrl with
          | Some u => String.eqb o (origin u)
          | None => false
          end = false) as ->.
  { destruct siteUrl as [u|]; [|done]. by apply String.eqb_neq, Hsite. }
  rewrite orb_false_l. split.
  - intros [= H]. by apply localhostPatterns_spec.
  - intros H%localhostPatterns_spec. by rewrite H.
Qed.

(** ** The environment: [src/lib/env.ts] *)

Lemma truthy_Some v : truthy v = true ↔ ∃ s, v = Some s ∧ s ≠ "".
Proof.
  destruct v as [s|]; simpl; [|split; [done|by intros (? & ? & _)]].
  destruct s; simpl; split; try done.
  - by intros (? & [= <-] & ?).
  - intros _. eauto.
Qed.

(** X15.  For the name of a variable, [getEnv] reads [import.meta.env]
    first and [process.env] second, and in both an empty string counts as
    unset: the answer is the first non-empty value, and the default when
    there is none.  So an empty string is only ever answered when it is the
    default itself. *)
Theorem getEnv_first_non_empty
    (sources : EnvSources) (key : string) (defaultValue : option string) :
  is_variable_name key = true ->
  let metaEnvValue := m ← importMetaEnv sources; m !! key in
  let processEnvValue := m ← processEnv sources; m !! key in
  (∀ v, metaEnvValue = Some v -> v ≠ "" ->
        getEnv sources key defaultValue = Some v) ∧
  (∀ v, truthy metaEnvValue = false -> processEnvValue = Some v -> v ≠ "" ->
        getEnv sources key defaultValue = Some v) ∧
  (truthy metaEnvValue = false -> truthy processEnvValue = false ->
   getEnv sources key defaultValue = defaultValue) ∧
  (getEnv sources key defaultValue = Some "" -> defaultValue = Some "").
Proof.
  intros _ metaEnvValue processEnvValue. unfold getEnv.
  fold metaEnvValue processEnvValue.
  split; [|split; [|split]].
  - intros v Hv Hne.
    assert (truthy metaEnvValue = true) as -> by (apply truthy_Some; eauto). done.
  - intros v -> Hv Hne.
    assert (truthy processEnvValue = true) as -> by (apply truthy_Some; eauto). done.
  - by intros -> ->.
  - destruct (truthy metaEnvValue) eqn:Hm.
    { apply truthy_Some in Hm as (s & -> & Hs). by intros [= ->]. }
    destruct (truthy processEnvValue) eqn:Hp; [|done].
    apply truthy_Some in Hp as (s & -> & Hs). by intros [= ->].
Qed.

(** X16.  For the name of a variable, [getRequiredEnv] returns exactly when
    [getEnv] would not fall back on a default: the value returned is not
    empty and is what [getEnv] answers under every default; and when it
    throws, the message names the variable and [getEnv] answers nothing but
    its default. *)
Theorem getRequiredEnv_returns_iff_set (sources : EnvSources) (key : string) :
  is_variable_name key = true ->
  match getRequiredEnv sources key with
  | Returns value =>
      value ≠ "" ∧ ∀ d, getEnv sources key d = Some value
  | Throws message =>
      message = "Required environment variable " +:+ key +:+ " is not set" ∧
      ∀ d, getEnv sources key d = d
  end.
Proof.
  intros _. unfold getRequiredEnv, getEnv.
  destruct (truthy (m ← importMetaEnv sources; m !! key)) eqn:Hm.
  { apply truthy_Some in Hm as (s & -> & Hs).
    destruct (is_empty s) eqn:Hemp; [by apply is_empty_spec in Hemp|done]. }
  destruct (truthy (m ← processEnv sources; m !! key)) eqn:Hp; [|done].
  apply truthy_Some in Hp as (s & -> & Hs).
  destruct (is_empty s) eqn:Hemp; [by apply is_empty_spec in Hemp|done].
Qed.

(** X17.  What the mode means for the origin guard when no override is
    given: with [NODE_ENV] unset, a request that carries neither [Origin]
    nor [Referer] is accepted; with [NODE_ENV] set to anything but
    [development] and [test], the guard decides as it does in production. *)
Theorem validateOrigin_ambient_mode
    (parse_url : string -> option URL) (sources : EnvSources)
    (request : Request) (siteUrl : option URL) :
  (truthy (m ← importMetaEnv sources; m !! "NODE_ENV") = false ->
   truthy (m ← processEnv sources; m !! "NODE_ENV") = false ->
   headers request !! "origin" = None ->
   headers request !! "referer" = None ->
   validateOrigin parse_url (env_nodeEnv sources) request siteUrl None = Ok true) ∧
  (env_isDevelopment sources = false ->
   env_isTest sources = false ->
   validateOrigin parse_url (env_nodeEnv sources) request siteUrl None
     = validateOrigin parse_url (env_nodeEnv sources) request siteUrl
         (Some production)).
Proof.
  split.
  - intros Hm Hp Ho Hr.
    assert (env_nodeEnv sources = "development") as ->
      by (unfold env_nodeEnv, getEnv; by rewrite Hm, Hp).
    unfold validateOrigin, requestOrigin. by rewrite Ho, Hr.
  - unfold env_isDevelopment, env_isTest. intros Hd Ht.
    unfold validateOrigin, env. simpl. by rewrite Hd, Ht.
Qed.

(** ** More on the endpoint *)

Lemma securityHeaders_keys k v :
  securityHeaders !! k = Some v ->
  k = "X-Content-Type-Options" ∨ k = "X-Frame-Options" ∨
  k = "X-XSS-Protection" ∨ k = "Content-Security-Policy".
Proof.
  unfold securityHeaders.
  rewrite !lookup_insert_Some, lookup_singleton_Some.
  intros [[-> _]|[_ [[-> _]|[_ [[-> _]|[_ [-> _]]]]]]]; auto.
Qed.

Lemma jsonHeaders_lookup k v :
  securityHeaders !! k = Some v -> jsonHeaders !! k = Some v.
Proof.
  intros Hk. unfold jsonHeaders, spread. apply lookup_union_Some_l. done.
Qed.

Lemma jsonHeaders_content_type :
  jsonHeaders !! "Content-Type" = Some "application/json".
Proof. reflexivity. Qed.

Lemma rateLimitHeaders_keep result k v :
  jsonHeaders !! k = Some v ->
  (k = "Content-Type" ∨ securityHeaders !! k = Some v) ->
  spread jsonHeaders (createRateLimitHeaders result) !! k = Some v.
Proof.
  intros Hk Hwhich. unfold spread. rewrite lookup_union_r; [done|].
  unfold createRateLimitHeaders.
  destruct Hwhich as [->|[->|[->|[->| ->]]]%securityHeaders_keys];
    by rewrite !lookup_insert_ne, lookup_singleton_ne.
Qed.

Lemma rateLimitHeaders_carry result k v :
  createRateLimitHeaders result !! k = Some v ->
  spread jsonHeaders (createRateLimitHeaders result) !! k = Some v.
Proof. intros Hk. unfold spread. by apply lookup_union_Some_l. Qed.

Lemma retry_after_keep (hs : gmap string string) retry k v :
  k ≠ "Retry-After" -> hs !! k = Some v ->
  spread hs {[ "Retry-After" := retry ]} !! k = Some v.
Proof.
  intros Hne Hk. unfold spread.
  rewrite lookup_union_r; [done|]. by rewrite lookup_singleton_ne.
Qed.

Section MoreEndpoint.

Context (parse_url : string -> option URL) (nodeEnv : string)
        (Client : Type) (getTursoClient : result Client)
        (search : Client -> string -> Z -> result (list JSON)).

Lemma run_search_headers hs body :
  response_headers (run_search Client getTursoClient search hs body) = hs.
Proof.
  unfold run_search, destructure.
  destruct body as [| | | | |members]; simpl; try done.
  destruct (member "query" members) as [[| | |q| |]|]; simpl; try done.
  destruct (is_empty q); simpl; [done|].
  destruct (500 <? Z.of_nat (String.length q)); simpl; [done|].
  destruct getTursoClient as [client|]; simpl; [|done].
  by destruct (search client q _).
Qed.

(** The outcome of [POST], stage by stage. *)
Lemma POST_stages w request site σ :
  let check := checkRateLimit w request searchConfig σ in
  let hs := spread jsonHeaders (createRateLimitHeaders (fst check)) in
  POST parse_url nodeEnv Client getTursoClient search w request site σ =
    match validateOrigin parse_url nodeEnv request site None with
    | Throw e => Throw e
    | Ok false =>
        Ok ({| status := 403; response_headers := jsonHeaders;
               body := error_body "Forbidden" (Some "Invalid request origin") |}, σ)
    | Ok true =>
        if allowed (fst check) then
          match json request with
          | None =>
              Ok ({| status := 400; response_headers := hs;
                     body := error_body "Invalid JSON"
                               (Some "Request body must be valid JSON.") |},
                  snd check)
          | Some body =>
              Ok (run_search Client getTursoClient search hs body, snd check)
          end
        else
          Ok ({| status := 429;
                 response_headers :=
                   spread hs
                     {[ "Retry-After" :=
                          pretty (ceil_div_1000
                                    (result_resetTime (fst check) - headerNow w)) ]};
                 body := JObj [("error", JStr "Too many requests");
                               ("message", JStr "Rate limit exceeded. Please try again later.");
                               ("retryAfter",
                                JNum (Finite (inject_Z
                                  (ceil_div_1000
                                     (result_resetTime (fst check) - bodyNow w)))))] |},
              snd check)
    end.
Proof.
  intros check hs. unfold POST. subst hs check.
  destruct (validateOrigin parse_url nodeEnv request site None) as [[]|]; simpl;
    [|done..].
  destruct (checkRateLimit w request searchConfig σ) as [rl σ']. simpl.
  destruct (allowed rl); simpl; [|done].
  by destruct (json request).
Qed.

Lemma run_search_status hs body :
  let s := status (run_search Client getTursoClient search hs body) in
  s = 200 ∨ s = 400 ∨ s = 500.
Proof.
  unfold run_search, destructure.
  destruct body as [| | | | |members]; simpl; auto.
  destruct (member "query" members) as [[| | |q| |]|]; simpl; auto.
  destruct (is_empty q); simpl; auto.
  destruct (500 <? Z.of_nat (String.length q)); simpl; auto.
  destruct getTursoClient as [client|]; simpl; auto.
  destruct (search client q _); simpl; auto.
Qed.

(** X18.  A request refused for its origin is not counted: the answer is
    403 exactly when the origin is invalid, and then the store is left as it
    was and the response carries no rate-limit header. *)
Theorem POST_forbidden_not_counted
    (w : World) (request : Request) (site : option URL) (σ σ' : Store)
    (response : Response) :
  POST parse_url nodeEnv Client getTursoClient search w request site σ
    = Ok (response, σ') ->
  (status response = 403 ↔
   validateOrigin parse_url nodeEnv request site None = Ok false) ∧
  (status response = 403 ->
   σ' = σ ∧
   body response = JObj [("error", JStr "Forbidden");
                         ("message", JStr "Invalid request origin")] ∧
   ∀ k, createRateLimitHeaders (fst (checkRateLimit w request searchConfig σ)) !! k ≠ None ->
        response_headers response !! k = None).
Proof.
  rewrite POST_stages.
  destruct (validateOrigin parse_url nodeEnv request site None) as [[]|];
    [| |done].
  - intros HPOST. assert (status response ≠ 403) as Hne.
    { revert HPOST.
      destruct (allowed (fst (checkRateLimit w request searchConfig σ)));
        [destruct (json request) as [body|]|]; intros [= <- <-]; simpl; try done.
      pose proof (run_search_status
                    (spread jsonHeaders
                       (createRateLimitHeaders
                          (fst (checkRateLimit w request searchConfig σ)))) body).
      simpl in *. lia. }
    split; [split; [done|by intros [=]]|done].
  - intros [= <- <-]. simpl. split; [done|]. intros _.
    split; [done|]. split; [done|].
    intros k Hk. unfold createRateLimitHeaders in Hk.
    destruct (decide (k = "X-RateLimit-Limit")) as [->|]; [done|].
    destruct (decide (k = "X-RateLimit-Remaining")) as [->|]; [done|].
    destruct (decide (k = "X-RateLimit-Reset")) as [->|]; [done|].
    by rewrite !lookup_insert_ne, lookup_singleton_ne in Hk.
Qed.

(** X19.  Every response of [POST] is declared as JSON and carries the four
    security headers; and every response other than the 403 also carries the
    three rate-limit headers of the check that was made for it, the request
    having been counted whatever its body was. *)
Theorem POST_response_headers
    (w : World) (request : Request) (site : option URL) (σ σ' : Store)
    (response : Response) :
  POST parse_url nodeEnv Client getTursoClient search w request site σ
    = Ok (response, σ') ->
  response_headers response !! "Content-Type" = Some "application/json" ∧
  (∀ k v, securityHeaders !! k = Some v ->
          response_headers response !! k = Some v) ∧
  (status response ≠ 403 ->
   σ' = snd (checkRateLimit w request searchConfig σ) ∧
   ∀ k v,
     createRateLimitHeaders (fst (checkRateLimit w request searchConfig σ)) !! k
       = Some v ->
     response_headers response !! k = Some v).
Proof.
  rewrite POST_stages.
  destruct (validateOrigin parse_url nodeEnv request site None) as [[]|];
    [| |done].
  - set (rl := fst (checkRateLimit w request searchConfig σ)).
    assert (∀ k v, createRateLimitHeaders rl !! k = Some v -> k ≠ "Retry-After")
      as Hretry.
    { intros k v Hk ->. unfold createRateLimitHeaders in Hk.
      by rewrite !lookup_insert_ne, lookup_singleton_ne in Hk. }
    destruct (allowed rl); [destruct (json request) as [body|]|];
      intros [= <- <-]; rewrite ?run_search_headers; simpl.
    + split; [by apply rateLimitHeaders_keep; auto|].
      split; [intros k v Hk; apply rateLimitHeaders_keep; auto using jsonHeaders_lookup|].
      intros _. split; [done|]. apply rateLimitHeaders_carry.
    + split; [by apply rateLimitHeaders_keep; auto|].
      split; [intros k v Hk; apply rateLimitHeaders_keep; auto using jsonHeaders_lookup|].
      intros _. split; [done|]. apply rateLimitHeaders_carry.
    + split; [apply retry_after_keep; [done|]; by apply rateLimitHeaders_keep; auto|].
      split.
      * intros k v Hk. apply retry_after_keep.
        { by destruct (securityHeaders_keys k v Hk) as [->|[->|[->| ->]]]. }
        apply rateLimitHeaders_keep; auto using jsonHeaders_lookup.
      * intros _. split; [done|]. intros k v Hk.
        apply retry_after_keep; [by eapply Hretry|by apply rateLimitHeaders_carry].
  - intros [= <- <-]. simpl.
    split; [done|]. split; [apply jsonHeaders_lookup|done].
Qed.

End MoreEndpoint.

Section MoreEndpoint2.

Context (parse_url : string -> option URL) (nodeEnv : string)
        (Client : Type) (getTursoClient : result Client)
        (search : Client -> string -> Z -> result (list JSON)).

(** When the search stage answers 200. *)
Lemma run_search_ok_intro hs members query client results :
  member "query" members = Some (JStr query) ->
  query ≠ "" -> (String.length query <= 500)%nat ->
  getTursoClient = Ok client ->
  search client query
    (sanitizedLimit (default (JNum (Finite 10)) (member "limit" members)))
    = Ok results ->
  run_search Client getTursoClient search hs (JObj members) =
    {| status := 200; response_headers := hs;
       body := JObj [("results", JArr results);
                     ("count", JNum (Finite (inject_Z (Z.of_nat (length results)))));
                     ("query", JStr query)] |}.
Proof.
  intros Hq Hne Hlen Hc Hs. unfold run_search, destructure.
  simpl. rewrite Hq. simpl.
  destruct (is_empty query) eqn:Hemp; [by apply is_empty_spec in Hemp|].
  assert ((500 <? Z.of_nat (String.length query)) = false) as -> by lia.
  rewrite Hc. simpl. by rewrite Hs.
Qed.

Lemma run_search_ok_inv hs body :
  status (run_search Client getTursoClient search hs body) = 200 ->
  ∃ members query client results,
    body = JObj members ∧
    member "query" members = Some (JStr query) ∧
    query ≠ "" ∧ (String.length query <= 500)%nat ∧
    getTursoClient = Ok client ∧
    search client query
      (sanitizedLimit (default (JNum (Finite 10)) (member "limit" members)))
      = Ok results.
Proof.
  unfold run_search, destructure.
  destruct body as [| | | | |members]; simpl; try done.
  destruct (member "query" members) as [[| | |q| |]|] eqn:Hq; simpl; try done.
  destruct (is_empty q) eqn:Hemp; simpl; [done|].
  destruct (500 <? Z.of_nat (String.length q)) eqn:Hlen; simpl; [done|].
  destruct getTursoClient as [client|]; simpl; [|done].
  destruct (search client q _) as [results|] eqn:Hs; simpl; [|done].
  intros _. exists members, q, client, results.
  split; [done|]. split; [done|].
  split; [intros ->; done|]. split; [lia|done].
Qed.

(** X20.  [POST] answers 200 exactly when every stage passes: the origin is
    valid, the rate limit allows the request, the body is a JSON object
    whose [query] is a string of 1 to 500 characters, the database client
    could be made and the search returned.  The search was then run with
    the clamped limit, and the response echoes the query and counts the
    results. *)
Theorem POST_ok_iff
    (w : World) (request : Request) (site : option URL) (σ σ' : Store)
    (response : Response) :
  POST parse_url nodeEnv Client getTursoClient search w request site σ
    = Ok (response, σ') ->
  status response = 200 ↔
  validateOrigin parse_url nodeEnv request site None = Ok true ∧
  allowed (fst (checkRateLimit w request searchConfig σ)) = true ∧
  ∃ members query client results,
    json request = Some (JObj members) ∧
    member "query" members = Some (JStr query) ∧
    query ≠ "" ∧ (String.length query <= 500)%nat ∧
    getTursoClient = Ok client ∧
    search client query
      (sanitizedLimit (default (JNum (Finite 10)) (member "limit" members)))
      = Ok results ∧
    body response = JObj [("results", JArr results);
                          ("count", JNum (Finite (inject_Z (Z.of_nat (length results)))));
                          ("query", JStr query)].
Proof.
  rewrite (POST_stages parse_url nodeEnv Client getTursoClient search).
  destruct (validateOrigin parse_url nodeEnv request site None) as [[]|];
    [| |done].
  - destruct (allowed (fst (checkRateLimit w request searchConfig σ)));
      [destruct (json request) as [body|]|]; intros [= <- <-]; simpl.
    + split.
      * intros (members & query & client & results & -> & Hq & Hne & Hlen & Hc & Hs)
          %run_search_ok_inv.
        split; [done|]. split; [done|]. exists members, query, client, results.
        repeat (split; [done|]).
        by rewrite (run_search_ok_intro _ members query client results).
      * intros (_ & _ & members & query & client & results
                & [= ->] & Hq & Hne & Hlen & Hc & Hs & _).
        by rewrite (run_search_ok_intro _ members query client results).
    + split; [done|]. by intros (_ & _ & ? & ? & ? & ? & ? & _).
    + split; [done|]. by intros (_ & ? & _).
  - intros [= <- <-]. simpl. split; [done|]. by intros [? _].
Qed.

(** X21.  A request that is refused never reaches the database: when the
    answer is 403, 429 or 400, it is the same answer whatever the client
    factory and the search would have done. *)
Theorem POST_refusal_ignores_backend
    (w : World) (request : Request) (site : option URL) (σ σ' : Store)
    (response : Response)
    (Client' : Type) (getTursoClient' : result Client')
    (search' : Client' -> string -> Z -> result (list JSON)) :
  POST parse_url nodeEnv Client getTursoClient search w request site σ
    = Ok (response, σ') ->
  status response = 403 ∨ status response = 429 ∨ status response = 400 ->
  POST parse_url nodeEnv Client' getTursoClient' search' w request site σ
    = Ok (response, σ').
Proof.
  rewrite !POST_stages.
  destruct (validateOrigin parse_url nodeEnv request site None) as [[]|];
    [|done..].
  destruct (allowed (fst (checkRateLimit w request searchConfig σ))); [|done].
  destruct (json request) as [body|]; [|done].
  intros [= <- <-] Hstatus. do 2 f_equal.
  revert Hstatus. unfold run_search, destructure.
  destruct body as [| | | | |members]; simpl; try done; try lia.
  destruct (member "query" members) as [[| | |q| |]|]; simpl; try done.
  destruct (is_empty q); simpl; [done|].
  destruct (500 <? Z.of_nat (String.length q)); simpl; [done|].
  destruct getTursoClient as [client|]; simpl; [|lia].
  destruct (search client q _); simpl; lia.
Qed.

(** X22.  A throttled request is answered 429, is counted all the same, and
    is told when to come back: [Retry-After] is the time left until the
    window ends, in seconds rounded up. *)
Theorem POST_throttled
    (w : World) (request : Request) (site : option URL) (σ : Store) :
  validateOrigin parse_url nodeEnv request site None = Ok true ->
  allowed (fst (checkRateLimit w request searchConfig σ)) = false ->
  ∃ response seconds,
    POST parse_url nodeEnv Client getTursoClient search w request site σ
      = Ok (response, snd (checkRateLimit w request searchConfig σ)) ∧
    status response = 429 ∧
    response_headers response !! "Retry-After" = Some (pretty seconds) ∧
    let left := result_resetTime (fst (checkRateLimit w request searchConfig σ))
                - headerNow w in
    left <= seconds * 1000 < left + 1000.
Proof.
  intros Hvalid Hdenied. rewrite POST_stages, Hvalid, Hdenied.
  eexists _, _. split; [reflexivity|]. split; [done|]. split.
  - simpl. unfold spread. apply lookup_union_Some_l. apply lookup_singleton_eq.
  - simpl. unfold ceil_div_1000.
    set (x := result_resetTime _ - headerNow w).
    pose proof (Z.div_mod (- x) 1000 ltac:(lia)).
    pose proof (Z.mod_pos_bound (- x) 1000 ltac:(lia)). lia.
Qed.

(** X23.  Bodies that are valid JSON but not an object: [null] makes the
    destructuring throw inside the [try] and is answered with the generic
    500; an array, a string, a number or a boolean has no [query] and is
    answered 400. *)
Theorem POST_non_object_body
    (w : World) (request : Request) (site : option URL) (σ : Store) (payload : JSON) :
  validateOrigin parse_url nodeEnv request site None = Ok true ->
  allowed (fst (checkRateLimit w request searchConfig σ)) = true ->
  json request = Some payload ->
  (∀ members, payload ≠ JObj members) ->
  ∃ response,
    POST parse_url nodeEnv Client getTursoClient search w request site σ
      = Ok (response, snd (checkRateLimit w request searchConfig σ)) ∧
    (payload = JNull ->
     status response = 500 ∧
     body response = JObj [("error", JStr "Search failed");
                           ("message",
                            JStr "An error occurred while processing your search request.")]) ∧
    (payload ≠ JNull ->
     status response = 400 ∧
     body response = JObj [("error", JStr "Query parameter is required")]).
Proof.
  intros Hvalid Hallowed Hjson Hshape.
  rewrite POST_stages, Hvalid, Hallowed, Hjson.
  eexists. split; [reflexivity|].
  destruct payload; try done; by edestruct Hshape.
Qed.

End MoreEndpoint2.

(** X24.  The limit handed to the search is always between 1 and 20; a
    finite number is rounded down and clamped, so a whole number from 1 to
    20 is passed on as it is. *)
Theorem sanitizedLimit_range (limit : JSON) :
  1 <= sanitizedLimit limit <= 20 ∧
  (∀ q, limit = JNum (Finite q) ->
        sanitizedLimit limit = Z.min (Z.max 1 (Qfloor q)) 20) ∧
  (∀ n, limit = JNum (Finite (inject_Z n)) -> 1 <= n <= 20 ->
        sanitizedLimit limit = n).
Proof.
  unfold sanitizedLimit. split; [lia|]. split.
  - by intros q ->.
  - intros n -> Hn. unfold numericLimit. rewrite Qfloor_Z. lia.
Qed.

(** ** Numbers written as strings *)

Lemma digits_value_app acc d s :
  digits_value acc (d +:+ s) = digits_value (digits_value acc d) s.
Proof.
  revert acc. induction d as [|c d IH]; intros acc;
    rewrite ?append_String, ?append_empty; simpl; [done|]. apply IH.
Qed.

Lemma length_app_one d c :
  String.length (d +:+ String c "") = S (String.length d).
Proof.
  induction d as [|a d IH]; rewrite ?append_String, ?append_empty; simpl;
    [done|]. by rewrite IH.
Qed.

Lemma pretty_N_char_value y :
  (y < 10)%N -> Z.of_N (N_of_ascii (pretty_N_char y)) - 48 = Z.of_N y.
Proof.
  intros Hy.
  assert (y = 0 ∨ y = 1 ∨ y = 2 ∨ y = 3 ∨ y = 4 ∨ y = 5 ∨ y = 6 ∨ y = 7
          ∨ y = 8 ∨ y = 9)%N as Hcases by lia.
  by repeat destruct Hcases as [->|Hcases]; [..|subst y].
Qed.

(** The digits [pretty] writes for a natural number denote that number. *)
Lemma pretty_N_go_value x s :
  ∃ d, pretty_N_go x s = d +:+ s ∧ all_digits d ∧ ((0 < x)%N -> d ≠ "") ∧
       ∀ acc, digits_value acc d
              = acc * 10 ^ Z.of_nat (String.length d) + Z.of_N x.
Proof.
  revert s. induction (N.lt_wf_0 x) as [x _ IH]; intros s.
  assert (x = 0 ∨ 0 < x)%N as [->|Hpos] by lia.
  - exists "". rewrite pretty_N_go_0. split; [done|]. split; [done|].
    split; [lia|]. intros acc. simpl. lia.
  - rewrite pretty_N_go_step by done.
    destruct (IH (x `div` 10)%N ltac:(by apply N.div_lt)
                 (String (pretty_N_char (x `mod` 10)) s))
      as (d & -> & Hd & _ & Hval).
    exists (d +:+ String (pretty_N_char (x `mod` 10)) "").
    rewrite app_String_assoc. split; [done|]. split; [|split].
    + apply all_digits_app; [done|apply is_digit_pretty_N_char].
    + intros _. by destruct d.
    + intros acc. rewrite digits_value_app, Hval, length_app_one. simpl.
      rewrite pretty_N_char_value by (apply N.mod_lt; lia).
      rewrite Nat2Z.inj_succ, Z.pow_succ_r by lia.
      rewrite N2Z.inj_div, N2Z.inj_mod.
      pose proof (Z.div_mod (Z.of_N x) 10 ltac:(lia)). lia.
Qed.

Lemma pretty_N_value (x : N) :
  all_digits (pretty x) ∧ pretty x ≠ "" ∧ digits_value 0 (pretty x) = Z.of_N x.
Proof.
  unfold pretty, pretty_N. case_decide as Hx; [by subst x|].
  destruct (pretty_N_go_value x "") as (d & -> & Hd & Hne & Hval).
  rewrite append_empty_r. split; [done|]. split; [apply Hne; lia|].
  rewrite Hval. lia.
Qed.

Lemma take_while_all_digits d : all_digits d -> take_while is_digit d = d.
Proof.
  unfold all_digits. induction d as [|c d IH]; simpl; [done|].
  intros [-> Hd]%andb_prop. by rewrite IH.
Qed.

Lemma parseInt_unsigned c d :
  is_digit c = true ->
  parseInt (String c d)
    = number_of_Z (digits_value 0 (take_while is_digit (String c d))).
Proof.
  intros Hc. unfold parseInt.
  assert (trimStart (String c d) = String c d) as ->.
  { simpl. destruct c as [[] [] [] [] [] [] [] []]; try discriminate Hc; done. }
  assert (match String c d with
          | String "-" r => (true, r)
          | String "+" r => (false, r)
          | _ => (false, String c d)
          end%char = (false, String c d)) as ->.
  { destruct c as [[] [] [] [] [] [] [] []]; try discriminate Hc; done. }
  simpl. by rewrite Hc.
Qed.

Lemma parseInt_negative d :
  d ≠ "" -> all_digits d ->
  parseInt (String "-" d) = number_of_Z (- digits_value 0 d).
Proof.
  intros Hne Hd. unfold parseInt.
  change (trimStart (String "-" d)) with (String "-" d). cbv iota beta.
  rewrite take_while_all_digits by done.
  destruct d; [done|]. done.
Qed.

(** Reading back what [toString] wrote. *)
Lemma parseInt_pretty (z : Z) : parseInt (pretty z) = number_of_Z z.
Proof.
  destruct z as [|p|p].
  - by vm_compute.
  - destruct (pretty_N_value (Npos p)) as (Hd & Hne & Hval).
    change (pretty (Z.pos p)) with (pretty (Npos p)).
    destruct (pretty (Npos p)) as [|c d] eqn:Hp; [done|].
    rewrite parseInt_unsigned
      by (unfold all_digits in Hd; simpl in Hd; by apply andb_prop in Hd as [? _]).
    rewrite take_while_all_digits by done. by rewrite Hval.
  - destruct (pretty_N_value (Npos p)) as (Hd & Hne & Hval).
    change (pretty (Z.neg p)) with (String "-" (pretty (Npos p))).
    rewrite parseInt_negative by done. by rewrite Hval.
Qed.


(** X25.  A limit sent as the decimal string of a whole number is treated
    as that number: for every integer a double holds exactly, the string
    and the number give the same [sanitizedLimit]. *)
Theorem sanitizedLimit_string_as_number (n : Z) :
  - 2 ^ 53 <= n <= 2 ^ 53 ->
  sanitizedLimit (JStr (pretty n)) = sanitizedLimit (JNum (Finite (inject_Z n))).
Proof.
  intros Hn. unfold sanitizedLimit, numericLimit.
  rewrite parseInt_pretty. unfold number_of_Z.
  assert (2 ^ 53 < 2 ^ 1024 - 2 ^ 970) as Hbig by (by vm_compute).
  assert ((2 ^ 1024 - 2 ^ 970 <=? n) = false) as -> by lia.
  assert ((n <=? - (2 ^ 1024 - 2 ^ 970)) = false) as -> by lia.
  done.
Qed.

(** ** The earlier client identification *)

(** X26.  The earlier [getClientId] trusts all three proxy headers at once,
    in the order [cf-connecting-ip], [x-real-ip], [x-forwarded-for], and
    takes the first non-empty one as the client id without checking that it
    is an address; without [trustProxy] it reads no header. *)
Theorem legacy_getClientId_unvalidated (w : World) (request : Request) :
  (∀ v, headers request !! "cf-connecting-ip" = Some v -> v ≠ "" ->
        legacy_getClientId w request true = v) ∧
  (∀ v, truthy (headers request !! "cf-connecting-ip") = false ->
        headers request !! "x-real-ip" = Some v -> v ≠ "" ->
        legacy_getClientId w request true = v) ∧
  (∀ v, truthy (headers request !! "cf-connecting-ip") = false ->
        truthy (headers request !! "x-real-ip") = false ->
        headers request !! "x-forwarded-for" = Some v ->
        trim (first_entry v) ≠ "" ->
        legacy_getClientId w request true = trim (first_entry v)) ∧
  legacy_getClientId w request false = fallbackId w.
Proof.
  unfold legacy_getClientId, legacy_proxyIp.
  split; [|split; [|split]]; [..|done].
  - intros v -> Hne. simpl.
    destruct (is_empty v) eqn:Hemp; [by apply is_empty_spec in Hemp|].
    simpl. by rewrite Hemp.
  - intros v -> -> Hne. simpl.
    destruct (is_empty v) eqn:Hemp; [by apply is_empty_spec in Hemp|].
    simpl. by rewrite Hemp.
  - intros v -> -> -> Hne. simpl. rewrite split_head. simpl.
    destruct (is_empty (trim (first_entry v))) eqn:Hemp;
      [by apply is_empty_spec in Hemp|done].
Qed.

(** ** Validation helpers *)

Lemma matches_cls_iff cls u :
  matches (Cls cls) u ↔ ∃ c, u = String c "" ∧ in_class c cls = true.
Proof.
  split.
  - inversion 1; subst. eauto.
  - intros (c & -> & Hc). by constructor.
Qed.

Lemma matches_star_cls cls u :
  matches (Star (Cls cls)) u ↔ forallb_string (λ c, in_class c cls) u = true.
Proof.
  split.
  - remember (Star (Cls cls)) as r eqn:Hr. induction 1; try done.
    injection Hr as ->.
    apply matches_cls_iff in H as (c' & [= -> ->] & Hc).
    rewrite append_String, append_empty. simpl. rewrite Hc. by apply IHmatches2.
  - induction u as [|c u IH]; simpl; [constructor|].
    intros [Hc Hu]%andb_prop.
    change (String c u) with (String c "" +:+ u).
    constructor; [apply matches_cls_iff; eauto|by apply IH].
Qed.

Lemma matches_plus_cls cls u :
  matches (plus (Cls cls)) u ↔
  u ≠ "" ∧ forallb_string (λ c, in_class c cls) u = true.
Proof.
  unfold plus. rewrite matches_Cat_iff. split.
  - intros (s & t & -> & (c & -> & Hc)%matches_cls_iff & Ht%matches_star_cls).
    rewrite append_String, append_empty. split; [done|]. simpl. by rewrite Hc.
  - intros [Hne Hu]. destruct u as [|c u]; [done|].
    simpl in Hu. apply andb_prop in Hu as [Hc Hu].
    exists (String c ""), u. split; [done|].
    split; [apply matches_cls_iff; eauto|by apply matches_star_cls].
Qed.

Lemma forallb_string_app p s t :
  forallb_string p (s +:+ t) = forallb_string p s && forallb_string p t.
Proof.
  induction s as [|c s IH]; rewrite ?append_String, ?append_empty; simpl;
    [done|]. by rewrite IH, andb_assoc.
Qed.

Lemma last_char_app s c t :
  last_char (s +:+ String c t) = last_char (String c t).
Proof.
  induction s as [|a s IH]; rewrite ?append_String, ?append_empty; [done|].
  change (last_char (String a (s +:+ String c t)))
    with (match s +:+ String c t with
          | "" => Some a
          | String _ _ => last_char (s +:+ String c t)
          end).
  destruct s; rewrite ?append_String, ?append_empty in *; done.
Qed.

Lemma last_char_forallb p s c :
  forallb_string p s = true -> last_char s = Some c -> p c = true.
Proof.
  induction s as [|a s IH]; [done|]. simpl.
  intros [Ha Hs]%andb_prop. destruct s; [by intros [= <-]|]. by apply IH.
Qed.

Lemma slug_letter_char c : is_slug_letter c = true -> is_slug_char c = true.
Proof.
  unfold is_slug_letter, is_slug_char, in_class. cbn [existsb].
  destruct (in_range c ("a", "z")%char), (in_range c ("0", "9")%char); done.
Qed.

(** The hyphenated tail of a slug. *)
Lemma matches_slug_tail t :
  matches (Star (Cat (chr "-") slug_word)) t ->
  forallb_string is_slug_char t = true ∧
  (t = "" ∨ ∃ c, last_char t = Some c ∧ is_slug_letter c = true).
Proof.
  remember (Star (Cat (chr "-") slug_word)) as r eqn:Hr.
  induction 1 as [| | | | | |a c s t Hone _ Hrest IH]; try done.
  { split; [done|by left]. }
  injection Hr as ->. destruct (IH eq_refl) as [Hchars Hlast]. clear IH.
  apply matches_Cat_iff in Hone as (h & word & Heq & ->%matches_chr_iff & Hw).
  rewrite append_String, append_empty in Heq. injection Heq as -> ->.
  apply matches_plus_cls in Hw as [Hne Hw].
  assert (forallb_string is_slug_char word = true) as Hword.
  { clear -Hw. induction word as [|c w IH]; simpl in *; [done|].
    apply andb_prop in Hw as [Hc Hw]. rewrite IH by done.
    by rewrite (slug_letter_char c Hc). }
  split.
  - rewrite append_String. simpl. by rewrite forallb_string_app, Hword, Hchars.
  - right. destruct Hlast as [->|(c & Hc & Hletter)].
    + rewrite append_empty_r.
      destruct word as [|c w]; [done|].
      destruct (last_char (String c w)) as [l|] eqn:Hl.
      * exists l. split; [|by eapply (last_char_forallb _ _ l Hw)].
        change (last_char (String "-" (String c w))) with (last_char (String c w)).
        done.
      * exfalso. clear -Hl. revert c Hl. induction w as [|a w IH]; intros c; [done|].
        simpl. apply IH.
    + exists c. split; [|done].
      destruct t as [|b t]; [done|]. by rewrite last_char_app.
Qed.

(** X27.  A slug that passes [isValidSlug] is a string, is not empty, is
    made of lower-case letters, digits and hyphens only, and neither starts
    nor ends with a hyphen. *)
Theorem isValidSlug_safe (slug : JSON) :
  isValidSlug slug = true ->
  ∃ s, slug = JStr s ∧ s ≠ "" ∧
       forallb_string is_slug_char s = true ∧
       first_char s ≠ Some "-"%char ∧ last_char s ≠ Some "-"%char.
Proof.
  destruct slug as [| | |s| |]; try done. simpl.
  intros H%test_spec. exists s. split; [done|].
  apply matches_Cat_iff in H as (word & t & -> & Hw & Ht).
  apply matches_plus_cls in Hw as [Hne Hw].
  apply matches_slug_tail in Ht as [Hchars Hlast].
  assert (forallb_string is_slug_char word = true) as Hword.
  { clear -Hw. induction word as [|c w IH]; simpl in *; [done|].
    apply andb_prop in Hw as [Hc Hw]. rewrite IH by done.
    by rewrite (slug_letter_char c Hc). }
  destruct word as [|c w]; [done|].
  split; [by rewrite append_String|].
  split; [by rewrite forallb_string_app, Hword, Hchars|].
  split.
  - rewrite append_String. simpl. intros [= ->]. by simpl in Hw.
  - destruct Hlast as [->|(l & Hl & Hletter)].
    + rewrite append_empty_r. intros Hl.
      by pose proof (last_char_forallb _ _ _ Hw Hl).
    + destruct t as [|b t]; [done|]. rewrite last_char_app, Hl.
      intros [= ->]. done.
Qed.

(** X28.  [validateEnvironment] returns only a URL and a token that are
    both set and not empty, reports a missing URL before a missing token,
    and, read on [process.env] alone, returns exactly when
    [env.hasTursoCredentials] holds. *)
Theorem validateEnvironment_complete (vars : gmap string string) :
  match validateEnvironment vars with
  | Returns config =>
      vars !! "TURSO_DB_URL" = Some (TURSO_DB_URL config) ∧
      vars !! "TURSO_AUTH_TOKEN" = Some (TURSO_AUTH_TOKEN config) ∧
      TURSO_DB_URL config ≠ "" ∧ TURSO_AUTH_TOKEN config ≠ "" ∧
      env_hasTursoCredentials
        {| importMetaEnv := None; processEnv := Some vars |} = true
  | Throws message =>
      (message = "TURSO_DB_URL is required" ∧
       truthy (vars !! "TURSO_DB_URL") = false ∨
       message = "TURSO_AUTH_TOKEN is required" ∧
       truthy (vars !! "TURSO_DB_URL") = true ∧
       truthy (vars !! "TURSO_AUTH_TOKEN") = false) ∧
      env_hasTursoCredentials
        {| importMetaEnv := None; processEnv := Some vars |} = false
  end.
Proof.
  unfold validateEnvironment, env_hasTursoCredentials, env_tursoDbUrl,
    env_tursoAuthToken, getEnv. simpl.
  destruct (vars !! "TURSO_DB_URL") as [[|c u]|] eqn:Hu; simpl;
    [by split; [left|]| |by split; [left|]].
  destruct (vars !! "TURSO_AUTH_TOKEN") as [[|d t]|] eqn:Ht; simpl;
    [by split; [right|]| |by split; [right|]].
  done.
Qed.

(** ** [escapeHtml] *)

(** What one code unit becomes. *)
Lemma escape_unit_cases char :
  (is_special char = false ∧ htmlEscapes char = None) ∨
  (char = 38%N ∧ htmlEscapes char = Some (units "&amp;")) ∨
  (char = 60%N ∧ htmlEscapes char = Some (units "&lt;")) ∨
  (char = 62%N ∧ htmlEscapes char = Some (units "&gt;")) ∨
  (char = 34%N ∧ htmlEscapes char = Some (units "&quot;")) ∨
  (char = 39%N ∧ htmlEscapes char = Some (units "&#39;")).
Proof.
  unfold htmlEscapes, is_special.
  destruct (N.eqb_spec char 38) as [->|]; [auto 10|].
  destruct (N.eqb_spec char 60) as [->|]; [auto 10|].
  destruct (N.eqb_spec char 62) as [->|]; [auto 10|].
  destruct (N.eqb_spec char 34) as [->|]; [auto 10|].
  destruct (N.eqb_spec char 39) as [->|]; [auto 10|].
  by left.
Qed.

(** X29.  What [escapeHtml] writes holds no angle bracket, no double quote
    and no apostrophe, so it cannot close an attribute or open a tag; text
    without any of the five characters is left as it is; and escaping a
    concatenation is concatenating the escapes. *)
Theorem escapeHtml_safe (text more : list N) :
  Forall (λ c, c ≠ 60 ∧ c ≠ 62 ∧ c ≠ 34 ∧ c ≠ 39)%N (escapeHtml text) ∧
  (Forall (λ c, is_special c = false) text -> escapeHtml text = text) ∧
  escapeHtml (text ++ more)%list = (escapeHtml text ++ escapeHtml more)%list.
Proof.
  unfold escapeHtml. split; [|split].
  - induction text as [|c text IH]; simpl; [constructor|].
    apply Forall_app. split; [|done].
    destruct (escape_unit_cases c)
      as [[Hc ->]|[[-> ->]|[[-> ->]|[[-> ->]|[[-> ->]|[-> ->]]]]]]; simpl;
      try by repeat constructor.
    constructor; [|constructor]. unfold is_special in Hc.
    repeat split; intros ->; done.
  - induction 1 as [|c text Hc _ IH]; simpl; [done|].
    destruct (escape_unit_cases c)
      as [[_ ->]|[[-> _]|[[-> _]|[[-> _]|[[-> _]|[-> _]]]]]]; try done.
    simpl. by rewrite IH.
  - apply flat_map_app.
Qed.

(** X30.  [escapeHtml] loses nothing: two texts with the same escape are the
    same text. *)
Theorem escapeHtml_injective (text text' : list N) :
  escapeHtml text = escapeHtml text' -> text = text'.
Proof.
  unfold escapeHtml. revert text'.
  induction text as [|c text IH]; intros [|c' text']; simpl.
  - done.
  - destruct (escape_unit_cases c')
      as [[_ ->]|[[-> ->]|[[-> ->]|[[-> ->]|[[-> ->]|[-> ->]]]]]]; done.
  - destruct (escape_unit_cases c)
      as [[_ ->]|[[-> ->]|[[-> ->]|[[-> ->]|[[-> ->]|[-> ->]]]]]]; done.
  - destruct (escape_unit_cases c)
      as [[Hc ->]|[[-> ->]|[[-> ->]|[[-> ->]|[[-> ->]|[-> ->]]]]]];
    destruct (escape_unit_cases c')
      as [[Hc' ->]|[[-> ->]|[[-> ->]|[[-> ->]|[[-> ->]|[-> ->]]]]]];
    simpl; intros Heq; simplify_eq; try done;
    by f_equal; apply IH.
Qed.

(** ** Worked instances *)

Lemma getClientId_reads_only_trusted_header_witness :
  getClientId (at_time 1000) example_request (Some x_forwarded_for)
  = getClientId (at_time 1000)
      (with_header example_request "referer" (Some "https://elsewhere.example"))
      (Some x_forwarded_for).
Proof.
  apply getClientId_reads_only_trusted_header.
  - intros h [= <-]. reflexivity.
  - reflexivity.
  - reflexivity.
Defined.

Lemma checkRateLimit_isolation_witness :
  fst (checkRateLimit (at_time 2000) other_request example_config
         (snd (checkRateLimit (at_time 1500) example_request example_config
                 example_store)))
  = fst (checkRateLimit (at_time 2000) other_request example_config example_store).
Proof.
  apply (checkRateLimit_isolation (at_time 1500) (at_time 2000)
           example_request other_request example_config example_config
           example_store).
  - apply reachable_check, reachable_start.
  - vm_compute. discriminate.
Defined.

Lemma checkRateLimit_answer_coherent_witness :
  0 <= remaining (fst (checkRateLimit (at_time 2000) example_request
                          example_config example_store)).
Proof.
  apply (checkRateLimit_answer_coherent (at_time 2000) example_request
           example_config example_store).
  apply reachable_check, reachable_start.
Defined.

Lemma checkRateLimit_reset_not_past_witness :
  now (at_time 2000)
  <= result_resetTime (fst (checkRateLimit (at_time 2000) example_request
                              example_config example_store)).
Proof.
  apply checkRateLimit_reset_not_past. vm_compute. discriminate.
Defined.

Lemma checkRateLimit_quota_witness :
  Z.of_nat (length (List.filter allowed
    (answers_of "10.20.30.40"
       ((at_time 1000, example_request, example_config) :: example_calls)
       (fst (run_checks
               ((at_time 1000, example_request, example_config) :: example_calls)
               empty_store)))))
  <= Z.max 0 (maxRequests example_config).
Proof.
  apply (checkRateLimit_quota (at_time 1000) example_request example_config
           example_calls empty_store).
  - apply reachable_start.
  - vm_compute. exact I.
  - intros w' request' config' Hin _. unfold example_calls in Hin.
    repeat (apply elem_of_cons in Hin as [Hin|Hin];
            [injection Hin as -> -> ->; split; [reflexivity|vm_compute; discriminate]|]).
    by apply elem_of_nil in Hin.
Defined.

Lemma sweep_transparent_witness :
  fst (checkRateLimit (at_time 2000) example_request example_config
         (sweep 500 example_store))
  = fst (checkRateLimit (at_time 2000) example_request example_config example_store).
Proof.
  apply (sweep_transparent 500 (at_time 2000) example_request example_config
           example_store).
  vm_compute. discriminate.
Defined.

Lemma validateOrigin_origin_takes_precedence_witness :
  validateOrigin URL_new "production"
    (request_with [("origin", "https://example.com");
                   ("referer", "not-a-valid-url")] None)
    (Some example_site) None
  = validateOrigin URL_new "production"
      (request_with [("origin", "https://example.com")] None)
      (Some example_site) None.
Proof.
  apply (validateOrigin_origin_takes_precedence URL_new "production" _ _ _ _
           "https://example.com").
  - reflexivity.
  - reflexivity.
  - discriminate.
Defined.

Lemma validateOrigin_without_site_witness :
  validateOrigin URL_new "production"
    (request_with [("origin", "https://example.com")] None) None None ≠ Ok true.
Proof.
  apply validateOrigin_without_site.
  - reflexivity.
  - reflexivity.
Defined.

Lemma validateOrigin_relaxation_only_adds_witness :
  validateOrigin URL_new "production"
    (request_with [("origin", "https://example.com")] None)
    (Some example_site) (Some development) = Ok true.
Proof.
  apply (validateOrigin_relaxation_only_adds URL_new "production" _ _ production).
  - reflexivity.
  - reflexivity.
  - reflexivity.
Defined.

Lemma validateOrigin_loopback_only_witness :
  validateOrigin URL_new "development"
    (request_with [("origin", "http://localhost:4321")] None)
    (Some example_site) None = Ok true ↔
  is_loopback_origin "http://localhost:4321".
Proof.
  apply (validateOrigin_loopback_only URL_new "development"
           (request_with [("origin", "http://localhost:4321")] None)
           (Some example_site) None "http://localhost:4321").
  - reflexivity.
  - reflexivity.
  - discriminate.
  - intros u [= <-]. discriminate.
Defined.

Lemma POST_forbidden_not_counted_witness :
  ∃ response,
    POST URL_new "production" unit (Ok ()) echo_search (at_time 1000)
      evil_request (Some example_site) example_store
    = Ok (response, example_store) ∧
    (status response = 403 ↔
     validateOrigin URL_new "production" evil_request (Some example_site) None
       = Ok false).
Proof.
  eexists. split; [reflexivity|].
  apply (POST_forbidden_not_counted URL_new "production" unit (Ok ())
           echo_search (at_time 1000) evil_request (Some example_site)
           example_store example_store).
  reflexivity.
Defined.

Lemma POST_response_headers_witness :
  ∃ response σ',
    POST URL_new "production" unit (Ok ()) echo_search (at_time 2000)
      example_request (Some example_site) example_store
    = Ok (response, σ') ∧
    response_headers response !! "Content-Type" = Some "application/json".
Proof.
  eexists _, _. split; [reflexivity|].
  destruct (POST_response_headers URL_new "production" unit (Ok ()) echo_search
              (at_time 2000) example_request (Some example_site) example_store
              _ _ eq_refl) as [H _].
  exact H.
Defined.

Lemma POST_ok_iff_witness :
  ∃ response σ',
    POST URL_new "production" unit (Ok ()) echo_search (at_time 2000)
      example_request (Some example_site) example_store
    = Ok (response, σ') ∧
    validateOrigin URL_new "production" example_request (Some example_site) None
      = Ok true.
Proof.
  eexists _, _. split; [reflexivity|].
  apply (POST_ok_iff URL_new "production" unit (Ok ()) echo_search
           (at_time 2000) example_request (Some example_site) example_store _ _
           eq_refl).
  reflexivity.
Defined.

Lemma POST_refusal_ignores_backend_witness :
  POST URL_new "production" bool (Throw (TypeError "no database"))
    (λ _ _ _, Ok []) (at_time 1000) evil_request (Some example_site) example_store
  = POST URL_new "production" unit (Ok ()) echo_search (at_time 1000)
      evil_request (Some example_site) example_store.
Proof.
  rewrite (POST_refusal_ignores_backend URL_new "production" unit (Ok ())
             echo_search (at_time 1000) evil_request (Some example_site)
             example_store example_store
             {| status := 403; response_headers := jsonHeaders;
                body := error_body "Forbidden" (Some "Invalid request origin") |}
             bool (Throw (TypeError "no database")) (λ _ _ _, Ok [])).
  - reflexivity.
  - reflexivity.
  - left. reflexivity.
Defined.

Lemma POST_throttled_witness :
  ∃ response (seconds : Z),
    POST URL_new "production" unit (Ok ()) echo_search (at_time 2000)
      example_request (Some example_site)
      exhausted_store
    = Ok (response,
          snd (checkRateLimit (at_time 2000) example_request searchConfig
                 exhausted_store)) ∧
    status response = 429 ∧
    response_headers response !! "Retry-After" = Some (pretty seconds).
Proof.
  destruct (POST_throttled URL_new "production" unit (Ok ()) echo_search
              (at_time 2000) example_request (Some example_site)
              exhausted_store)
    as (response & seconds & HPOST & Hstatus & Hretry & _).
  - reflexivity.
  - vm_compute. reflexivity.
  - exists response, seconds. split; [exact HPOST|]. split; [exact Hstatus|exact Hretry].
Defined.

Lemma POST_non_object_body_witness :
  ∃ response,
    POST URL_new "production" unit (Ok ()) echo_search (at_time 2000)
      (with_json example_request JNull) (Some example_site) example_store
    = Ok (response,
          snd (checkRateLimit (at_time 2000) (with_json example_request JNull)
                 searchConfig example_store)) ∧
    (JNull = JNull -> status response = 500 ∧
       body response = JObj [("error", JStr "Search failed");
                             ("message",
                              JStr "An error occurred while processing your search request.")]).
Proof.
  destruct (POST_non_object_body URL_new "production" unit (Ok ()) echo_search
              (at_time 2000) (with_json example_request JNull)
              (Some example_site) example_store JNull)
    as (response & HPOST & Hnull & _).
  - reflexivity.
  - vm_compute. reflexivity.
  - reflexivity.
  - discriminate.
  - exists response. split; [exact HPOST|exact Hnull].
Defined.

Lemma sanitizedLimit_string_as_number_witness :
  sanitizedLimit (JStr (pretty 7)) = sanitizedLimit (JNum (Finite (inject_Z 7))).
Proof.
  apply sanitizedLimit_string_as_number. vm_compute. split; discriminate.
Defined.

Lemma isValidSlug_safe_witness :
  ∃ s, JStr "api-reference-2024" = JStr s ∧ s ≠ "" ∧
       forallb_string is_slug_char s = true ∧
       first_char s ≠ Some "-"%char ∧ last_char s ≠ Some "-"%char.
Proof. apply isValidSlug_safe. reflexivity. Defined.

Lemma escapeHtml_injective_witness :
  units "<a href='x'>" = units "<a href='x'>".
Proof. apply escapeHtml_injective. reflexivity. Defined.


Lemma getEnv_first_non_empty_witness :
  getEnv example_sources "TURSO_DB_URL" None = Some "libsql://docs.example".
Proof.
  destruct (getEnv_first_non_empty example_sources "TURSO_DB_URL" None eq_refl)
    as (_ & Hprocess & _).
  apply Hprocess; [reflexivity|reflexivity|discriminate].
Defined.

Lemma getRequiredEnv_returns_iff_set_witness :
  is_variable_name "TURSO_DB_URL" = true ∧
  match getRequiredEnv example_sources "TURSO_DB_URL" with
  | Returns value =>
      value ≠ "" ∧ ∀ d, getEnv example_sources "TURSO_DB_URL" d = Some value
  | Throws message =>
      message = "Required environment variable " +:+ "TURSO_DB_URL" +:+ " is not set" ∧
      ∀ d, getEnv example_sources "TURSO_DB_URL" d = d
  end.
Proof.
  split; [reflexivity|].
  apply (getRequiredEnv_returns_iff_set example_sources "TURSO_DB_URL").
  reflexivity.
Defined.
